(** * node-git-http-server: a shallow embedding of [server.js]

    The server is a thin HTTP front end for [git http-backend].  Its own
    code consists of three parts, all modelled below:

    - start-up provisioning of the bare repositories (lines 14-31);
    - [requestHandler] (lines 128-150), the router with its path check;
    - [handleGitRequest] (lines 33-126), which spawns the CGI backend and
      translates its output (header block, blank line, body) into calls
      on the HTTP response object.

    Everything the code does to the outside world is a call on a platform
    object ([res], [console], [child_process], [fs]).  The model has two
    layers.

    - A handler or listener is a function that returns the calls the
      code makes, in program order and in the case that each of them
      returns, together with the completion of the code's own
      statements.  The code never branches on what a call returns, so
      this list does not depend on the platform.
    - Node decides which calls return.  [Node.perform] gives its
      decision for the calls of [server.js] ([setHeader] rejects an
      invalid name or value, the first [write] or [end] rejects a status
      code outside 100..999, [spawn] and [pipe] fail with the child), and
      [Node.run], [Node.listen] and [Node.serve] replay a handler's
      calls against it: the first call that throws ends the listener
      and, nothing being caught, the process.  What a client receives is
      what this second layer lets through.

    Conventions.
    - A JavaScript string is held as the Rocq [string] of its UTF-8
      encoding; the separators the code splits on are ASCII, so splitting,
      joining and comparing commute with that encoding.
    - A [Buffer] is a [list byte].
    - [new URL(req.url, base)] and [Buffer.prototype.toString] belong to
      the platform: a request carries the outcome of the former, and the
      latter is a parameter of the development.  [Target] follows the
      URL parser on request targets in origin form, so that statements
      about the parsed pathname can be set against the path as sent. *)

From Stdlib Require Import ZArith List Ascii String Bool Lia.
From Stdlib Require Import Strings.Byte.
From stdpp Require Import gmap strings list.

Local Open Scope Z_scope.

(** ** JavaScript strings *)

Module Text.

(** [s.startsWith(p)] *)
Fixpoint startsWith (p s : string) : bool :=
  match p, s with
  | EmptyString, _ => true
  | String a p', String b s' => if Ascii.eqb a b then startsWith p' s' else false
  | String _ _, EmptyString => false
  end.

(** [s.substring(n)]; the code applies it to URL pathnames, which are
    ASCII, so that bytes and UTF-16 code units coincide. *)
Fixpoint substring_from (n : nat) (s : string) : string :=
  match n, s with
  | O, _ => s
  | S n', String _ s' => substring_from n' s'
  | S _, EmptyString => EmptyString
  end.

(** [s.includes(sub)] *)
Fixpoint includes (sub s : string) : bool :=
  startsWith sub s ||
  match s with
  | EmptyString => false
  | String _ s' => includes sub s'
  end.

Fixpoint rev_append (acc s : string) : string :=
  match acc with
  | EmptyString => s
  | String c acc' => rev_append acc' (String c s)
  end.

(** [s.split(sep)] for a non-empty separator.  [skip] counts the
    characters of a separator occurrence still to be passed over and
    [cur] holds the current piece, last character first. *)
Fixpoint split_from (sep : string) (skip : nat) (cur s : string) : list string :=
  match s with
  | EmptyString => [rev_append cur EmptyString]
  | String c s' =>
      match skip with
      | S k => split_from sep k cur s'
      | O =>
          if startsWith sep s
          then rev_append cur EmptyString
                 :: split_from sep (String.length sep - 1) EmptyString s'
          else split_from sep O (String c cur) s'
      end
  end.

Definition split (sep s : string) : list string :=
  split_from sep O EmptyString s.

(** [parts.join(sep)] *)
Fixpoint join (sep : string) (parts : list string) : string :=
  match parts with
  | [] => EmptyString
  | [p] => p
  | p :: rest => p +:+ sep +:+ join sep rest
  end.

(** [s.toLowerCase()] on the ASCII letters.  Outside ASCII the Unicode
    mapping never produces an ASCII letter from another character, so a
    comparison of the result with an ASCII literal is decided by this
    part alone. *)
Definition lower_ascii (c : ascii) : ascii :=
  let n := nat_of_ascii c in
  if ((65 <=? n)%nat && (n <=? 90)%nat)%bool then ascii_of_nat (n + 32) else c.

Fixpoint toLowerCase (s : string) : string :=
  match s with
  | EmptyString => EmptyString
  | String c s' => String (lower_ascii c) (toLowerCase s')
  end.

Definition of_codes (l : list nat) : string :=
  fold_right (fun n s => String (ascii_of_nat n) s) EmptyString l.

(** The WhiteSpace and LineTerminator code points of ECMAScript, in
    UTF-8: TAB, LF, VT, FF, CR, SP, U+00A0, U+1680, U+2000..U+200A,
    U+2028, U+2029, U+202F, U+205F, U+3000, U+FEFF. *)
Definition whitespace : list string :=
  map of_codes
    ([[9]; [10]; [11]; [12]; [13]; [32]; [194; 160]; [225; 154; 128]]
     ++ map (fun k => [226; 128; 128 + k]) (seq 0 11)
     ++ [[226; 128; 168]; [226; 128; 169]; [226; 128; 175];
         [226; 129; 159]; [227; 128; 128]; [239; 187; 191]])%nat.

Definition strip_one (table : list string) (s : string) : option string :=
  match filter (fun w => Is_true (startsWith w s)) table with
  | w :: _ => Some (substring_from (String.length w) s)
  | [] => None
  end.

Fixpoint strip_all (table : list string) (fuel : nat) (s : string) : string :=
  match fuel with
  | O => s
  | S fuel' =>
      match strip_one table s with
      | Some s' => strip_all table fuel' s'
      | None => s
      end
  end.

Definition reverse (s : string) : string := rev_append s EmptyString.

(** [s.trimStart()], [s.trimEnd()], [s.trim()] *)
Definition trimStart (s : string) : string :=
  strip_all whitespace (String.length s) s.

Definition trimEnd (s : string) : string :=
  reverse (strip_all (map reverse whitespace) (String.length s) (reverse s)).

Definition trim (s : string) : string := trimEnd (trimStart s).

(** [c] does not occur in [s]. *)
Definition free_of (c : ascii) (s : string) : Prop :=
  forall a b, s <> a +:+ String c b.


End Text.

(** ** JavaScript numbers, as far as [parseInt] produces them *)

(** The doubles that [parseInt] can return: [NaN], the two infinities,
    negative zero, and the doubles whose value is an integer.  [Int z]
    stands for the double of value [z]; [Num.to_double] only builds it
    for a [z] that a double holds exactly. *)
Inductive number : Type :=
| NaN
| Int (z : Z)
| Infinity (negative : bool)
| NegZero.

Module Num.

Definition digit_value (c : ascii) : option Z :=
  let n := Z.of_nat (nat_of_ascii c) in
  if (48 <=? n) && (n <=? 57) then Some (n - 48)
  else if (97 <=? n) && (n <=? 122) then Some (n - 87)
  else if (65 <=? n) && (n <=? 90) then Some (n - 55)
  else None.

(** The value of the longest prefix of [s] made of radix-[radix]
    digits; [acc] is [None] as long as no digit was read. *)
Fixpoint digits (radix : Z) (acc : option Z) (s : string) : option Z :=
  match s with
  | EmptyString => acc
  | String c s' =>
      match digit_value c with
      | Some d =>
          if d <? radix
          then digits radix (Some (radix * default 0 acc + d)) s'
          else acc
      | None => acc
      end
  end.

(** The double nearest to the integer [m >= 0] with the given sign:
    53 significant bits, ties to the even significand, overflow to an
    infinity. *)
Definition to_double (negative : bool) (m : Z) : number :=
  let signed (v : Z) := if negative then - v else v in
  if m =? 0 then (if negative then NegZero else Int 0)
  else
    let bits := Z.log2 m + 1 in
    if bits <=? 53 then Int (signed m)
    else
      let e := bits - 53 in
      let q := Z.shiftr m e in
      let r := m - Z.shiftl q e in
      let half := Z.shiftl 1 (e - 1) in
      let q' := if (half <? r) || ((r =? half) && Z.odd q) then q + 1 else q in
      let v := Z.shiftl q' e in
      if 2 ^ 1024 <=? v then Infinity negative else Int (signed v).

(** [parseInt(s)] with no radix argument.  The result is the double
    nearest to the value of the digits, as V8 computes it. *)
Definition parseInt (s : string) : number :=
  let s := Text.trimStart s in
  let '(sign, s) :=
    match s with
    | String "-" r => (-1, r)
    | String "+" r => (1, r)
    | _ => (1, s)
    end in
  let '(radix, s) :=
    if Text.startsWith "0x" s || Text.startsWith "0X" s
    then (16, Text.substring_from 2 s)
    else (10, s) in
  match digits radix None s with
  | Some m => to_double (sign <? 0) m
  | None => NaN
  end.

End Num.

(** ** Ordinary JavaScript objects with string values *)

(** An object used as a dictionary: its own properties in creation
    order.  Enumeration ([Object.entries]) lists the array-index keys
    first, in ascending numeric order, then the other keys in creation
    order. *)
Module Obj.

Definition t : Type := list (string * string).

Definition empty : t := [].

Fixpoint lookup (k : string) (o : t) : option string :=
  match o with
  | [] => None
  | (k', v) :: o' => if String.eqb k k' then Some v else lookup k o'
  end.

(** CreateDataProperty: overwrite in place or append. *)
Fixpoint define (k v : string) (o : t) : t :=
  match o with
  | [] => [(k, v)]
  | (k', v') :: o' =>
      if String.eqb k k' then (k', v) :: o' else (k', v') :: define k v o'
  end.

(** [o[k] = v].  The one inherited accessor, [__proto__], swallows the
    assignment of a string; every other key becomes an own property. *)
Definition set (k v : string) (o : t) : t :=
  if String.eqb k "__proto__" then o else define k v o.

(** [Object.fromEntries(pairs)] *)
Definition fromEntries (pairs : list (string * string)) : t :=
  fold_left (fun o kv => define (fst kv) (snd kv) o) pairs empty.

Fixpoint decimal (acc : N) (s : string) : option N :=
  match s with
  | EmptyString => Some acc
  | String c s' =>
      match Ascii.is_nat c with
      | Some d => decimal (10 * acc + N.of_nat d)%N s'
      | None => None
      end
  end.

(** A canonical numeric string below 2^32 - 1. *)
Definition array_index (k : string) : option N :=
  match k with
  | EmptyString => None
  | String "0" EmptyString => Some 0%N
  | String "0" _ => None
  | _ =>
      match decimal 0 k with
      | Some n => if (n <? 2 ^ 32 - 1)%N then Some n else None
      | None => None
      end
  end.

Fixpoint insert_sorted (i : N) (kv : string * string)
    (l : list (N * (string * string))) : list (N * (string * string)) :=
  match l with
  | [] => [(i, kv)]
  | (j, kv') :: l' =>
      if (i <? j)%N then (i, kv) :: l else (j, kv') :: insert_sorted i kv l'
  end.

Fixpoint indexed (o : t) : list (N * (string * string)) :=
  match o with
  | [] => []
  | kv :: o' =>
      match array_index (fst kv) with
      | Some i => insert_sorted i kv (indexed o')
      | None => indexed o'
      end
  end.

Fixpoint named (o : t) : t :=
  match o with
  | [] => []
  | kv :: o' =>
      match array_index (fst kv) with
      | Some _ => named o'
      | None => kv :: named o'
      end
  end.

(** [Object.entries(o)] *)
Definition entries (o : t) : list (string * string) :=
  map snd (indexed o) ++ named o.

End Obj.

(** ** Buffers *)

Section Buffer.
Context {A : Type} `{EqDecision A}.

Fixpoint starts (needle hay : list A) : bool :=
  match needle, hay with
  | [], _ => true
  | a :: needle', b :: hay' => bool_decide (a = b) && starts needle' hay'
  | _ :: _, [] => false
  end.

(** [hay.indexOf(needle)]; [None] stands for the result -1. *)
Fixpoint indexOf (needle hay : list A) : option nat :=
  if starts needle hay then Some O
  else match hay with
       | [] => None
       | _ :: hay' => S <$> indexOf needle hay'
       end.

End Buffer.

#[global] Instance byte_eq_dec : EqDecision byte := Byte.byte_eq_dec.

(** The four bytes of ['\r\n\r\n']. *)
Definition CRLFCRLF : list byte := [x0d; x0a; x0d; x0a].

Definition CRLF : string := String "013" (String "010" EmptyString).

(** ** Calls on the platform, and the monad that records them *)

Inductive effect : Type :=
| console_log (line : string)
| console_error (label detail : string)
| fs_existsSync (path : string)
| child_execSync (command : string)
| child_spawn (command : string) (args : list string) (env : gmap string string)
| req_pipe_stdin
| res_statusCode (code : number)
| res_setHeader (name value : string)
| res_write (chunk : list byte)
| res_end (data : option string).

Inductive completion (A : Type) : Type :=
| Normal (a : A)
| Thrown (e : string).

Arguments Normal {A} a.
Arguments Thrown {A} e.

(** A computation: the calls it made, in order, and how it completed.
    An exception that leaves a handler is not caught anywhere in
    [server.js]. *)
Definition Eff (A : Type) : Type := list effect * completion A.

Definition ret {A} (a : A) : Eff A := ([], Normal a).

Definition throw {A} (e : string) : Eff A := ([], Thrown e).

Definition emit (e : effect) : Eff unit := ([e], Normal tt).

Definition bind {A B} (m : Eff A) (k : A -> Eff B) : Eff B :=
  match m with
  | (t, Normal a) => (t ++ fst (k a), snd (k a))
  | (t, Thrown e) => (t, Thrown e)
  end.

Declare Scope eff_scope.
Delimit Scope eff_scope with eff.
Notation "x <- m ;; k" := (bind m (fun x => k))
  (at level 100, m at next level, right associativity) : eff_scope.
Notation "m ;; k" := (bind m (fun _ => k))
  (at level 100, right associativity) : eff_scope.

Local Open Scope eff_scope.

(** [l.forEach(...)] with the variables the callback updates threaded
    through as [s]. *)
Fixpoint forEach {A S} (l : list A) (f : S -> A -> Eff S) (s : S) : Eff S :=
  match l with
  | [] => ret s
  | a :: l' => s' <- f s a ;; forEach l' f s'
  end.

Definition trace {A} (m : Eff A) : list effect := fst m.

(** ** Requests and the process *)

(** The parts of [new URL(req.url, 'http://localhost')] the code reads. *)
Record URL : Type := {
  pathname : string;
  searchParams : list (string * string)
}.

(** [url] is the outcome of the [URL] constructor on [req.url], [None]
    when it throws; [headers] has lower-case keys, as Node delivers
    them. *)
Record IncomingMessage : Type := {
  method : string;
  url : option URL;
  headers : gmap string string;
  socket_remoteAddress : option string
}.

(** [process.env], and [GIT_PROJECT_ROOT], which is
    [path.join(__dirname, 'git-server-volume')]. *)
Record process : Type := {
  process_env : gmap string string;
  GIT_PROJECT_ROOT : string
}.

Definition PORT : Z := 3334.

(** [x || d] for a possibly undefined string [x]. *)
Definition or_else (x : option string) (d : string) : string :=
  match x with
  | Some (String _ _ as s) => s
  | _ => d
  end.

Definition hex_digit (n : nat) : ascii :=
  nth n (list_ascii_of_string "0123456789ABCDEF") "0"%char.

(** One byte under the application/x-www-form-urlencoded serialiser. *)
Definition urlencode_byte (c : ascii) : string :=
  let n := nat_of_ascii c in
  if ((48 <=? n) && (n <=? 57) || (65 <=? n) && (n <=? 90)
      || (97 <=? n) && (n <=? 122)
      || (n =? 42) || (n =? 45) || (n =? 46) || (n =? 95))%nat
  then String c EmptyString
  else if (n =? 32)%nat then "+"
  else String "%" (String (hex_digit (n / 16)) (String (hex_digit (n mod 16)) EmptyString)).

Fixpoint urlencode (s : string) : string :=
  match s with
  | EmptyString => EmptyString
  | String c s' => urlencode_byte c +:+ urlencode s'
  end.

(** [new URLSearchParams(query).toString()] *)
Definition URLSearchParams_toString (query : Obj.t) : string :=
  Text.join "&"
    (map (fun kv => urlencode (fst kv) +:+ "=" +:+ urlencode (snd kv))
         (Obj.entries query)).

(** [PORT.toString()] *)
Definition PORT_toString : string := "3334".

(** The environment handed to [git http-backend] (lines 39-54): the
    process environment, overridden by the CGI variables. *)
Definition cgi_env (p : process) (req : IncomingMessage) (u : URL)
    : gmap string string :=
  let query := Obj.fromEntries (searchParams u) in
  let host_part (i : nat) : option string :=
    h ← headers req !! "host"; Text.split ":" h !! i in
  list_to_map
    [ ("GIT_PROJECT_ROOT", GIT_PROJECT_ROOT p);
      ("GIT_HTTP_EXPORT_ALL", "1");
      ("PATH_INFO", Text.substring_from 4 (pathname u));
      ("REQUEST_METHOD", method req);
      ("QUERY_STRING", URLSearchParams_toString query);
      ("CONTENT_TYPE", or_else (headers req !! "content-type") "");
      ("CONTENT_LENGTH", or_else (headers req !! "content-length") "0");
      ("HTTP_USER_AGENT", or_else (headers req !! "user-agent") "");
      ("HTTP_AUTHORIZATION", or_else (headers req !! "authorization") "");
      ("REMOTE_ADDR", or_else (socket_remoteAddress req) "");
      ("REMOTE_USER", "");
      ("SERVER_NAME", or_else (host_part 0%nat) "localhost");
      ("SERVER_PORT", or_else (host_part 1%nat) PORT_toString) ]
  ∪ process_env p.

(** ** The git proxy: [handleGitRequest] *)

(** The variables of the closure (lines 73-75). *)
Record proxy : Type := {
  responseHeaders : Obj.t;
  headersParsed : bool;
  responseBuffer : list byte
}.

(** What the backend child process can deliver to the listeners that
    [handleGitRequest] registers.  The forms a failed spawn can take
    are in [Node.spawn_result]. *)
Inductive backend_event : Type :=
| child_error (error : string)
| stdout_data (chunk : list byte)
| stdout_end
| stderr_data (data : list byte).

Section Server.

(** [buf.toString()]: UTF-8 decoding, done by the platform. *)
Variable Buffer_toString : list byte -> string.

(** Lines 33-70: spawn the backend and connect the request body.
    Both calls can throw; [Node.perform] says when. *)
Definition handleGitRequest (p : process) (req : IncomingMessage) : Eff proxy :=
  match url req with
  | None => throw "TypeError: Invalid URL"
  | Some u =>
      emit (child_spawn "git" ["http-backend"] (cgi_env p req u)) ;;
      emit req_pipe_stdin ;;
      ret {| responseHeaders := Obj.empty;
             headersParsed := false;
             responseBuffer := [] |}
  end.

(** The callback of [headers.forEach] (lines 88-99). *)
Definition parse_header (responseHeaders : Obj.t) (header : string) : Eff Obj.t :=
  match Text.split ":" header with
  | key :: valueParts =>
      if negb (String.eqb key "") && (0 <? Z.of_nat (length valueParts))
      then
        let value := Text.trim (Text.join ":" valueParts) in
        if String.eqb (Text.toLowerCase key) "status"
        then
          let statusCode := Num.parseInt (hd "" (Text.split " " value)) in
          emit (res_statusCode statusCode) ;; ret responseHeaders
        else ret (Obj.set key value responseHeaders)
      else ret responseHeaders
  | [] => ret responseHeaders
  end.

(** The loop over [Object.entries(responseHeaders)] (lines 102-104):
    the [setHeader] calls it makes if none of them throws.  The loop
    stops at the first one that Node rejects ([Node.run]). *)
Definition set_headers (responseHeaders : Obj.t) : Eff unit :=
  forEach (Obj.entries responseHeaders)
          (fun _ kv => emit (res_setHeader (fst kv) (snd kv))) tt.

(** Lines 84-104: the header section becomes a status code and
    [setHeader] calls. *)
Definition translate_headers (responseHeaders : Obj.t) (headerSection : string)
    : Eff Obj.t :=
  let headers := Text.split CRLF headerSection in
  responseHeaders <- forEach headers parse_header responseHeaders ;;
  set_headers responseHeaders ;;
  ret responseHeaders.

(** The listener on [gitBackend.stdout] 'data' (lines 77-117): its
    calls and the closure's variables after it, if every call returns.
    When [setHeader] or [write] throws, the listener ends there, line
    106 is not reached and the process ends ([Node.listen]). *)
Definition on_stdout_data (st : proxy) (chunk : list byte) : Eff proxy :=
  if negb (headersParsed st) then
    let responseBuffer := responseBuffer st ++ chunk in
    match indexOf CRLFCRLF responseBuffer with
    | Some headerEndIndex =>
        let headerSection := Buffer_toString (take headerEndIndex responseBuffer) in
        let bodySection := drop (headerEndIndex + 4) responseBuffer in
        responseHeaders <- translate_headers (responseHeaders st) headerSection ;;
        (if (0 <? Z.of_nat (length bodySection))
         then emit (res_write bodySection) else ret tt) ;;
        ret {| responseHeaders := responseHeaders;
               headersParsed := true;
               responseBuffer := responseBuffer |}
    | None =>
        ret {| responseHeaders := responseHeaders st;
               headersParsed := false;
               responseBuffer := responseBuffer |}
    end
  else
    emit (res_write chunk) ;; ret st.

(** The four listeners of lines 63-125, on the same terms. *)
Definition on_event (st : proxy) (ev : backend_event) : Eff proxy :=
  match ev with
  | child_error error =>
      emit (console_error "Git backend error:" error) ;;
      emit (res_statusCode (Int 500)) ;;
      emit (res_end (Some "Internal Server Error")) ;;
      ret st
  | stdout_data chunk => on_stdout_data st chunk
  | stdout_end => emit (res_end None) ;; ret st
  | stderr_data data =>
      emit (console_error "Git backend stderr:" (Buffer_toString data)) ;;
      ret st
  end.

(** ** The router: [requestHandler] (lines 128-150) *)

(** The result is the proxy closure when the request was handed to
    [handleGitRequest], [None] when it was answered on the spot. *)
Definition requestHandler (p : process) (req : IncomingMessage)
    : Eff (option proxy) :=
  match url req with
  | None => throw "TypeError: Invalid URL"
  | Some u =>
      let pathname := pathname u in
      if Text.startsWith "/git/" pathname then
        let gitPath := Text.substring_from 5 pathname in
        if Text.includes ".." gitPath || Text.includes "//" gitPath then
          emit (res_statusCode (Int 400)) ;;
          emit (res_end (Some "Bad Request")) ;;
          ret None
        else
          st <- handleGitRequest p req ;; ret (Some st)
      else
        emit (res_statusCode (Int 404)) ;;
        emit (res_setHeader "Content-Type" "text/plain") ;;
        emit (res_end (Some "Not Found")) ;;
        ret None
  end.

(** One request from arrival to the last event of its backend. *)
Definition serve (p : process) (req : IncomingMessage)
    (events : list backend_event) : Eff (option proxy) :=
  r <- requestHandler p req ;;
  match r with
  | Some st => st' <- forEach events on_event st ;; ret (Some st')
  | None => ret None
  end.

End Server.

(** ** Start-up provisioning (lines 14-31) *)

Definition dq : string := String (ascii_of_nat 34) EmptyString.

Definition nl : string := String "010" EmptyString.

Definition bootstrap_repositories : list string := ["repos1"; "repos2"; "repos3"].

(** [path.join(GIT_PROJECT_ROOT, `${repoName}.git`)]: the root is itself
    the result of [path.join], hence normalised, and the names hold no
    separator. *)
Definition repoPath_of (p : process) (repoName : string) : string :=
  GIT_PROJECT_ROOT p +:+ "/" +:+ repoName +:+ ".git".

(** The template literal of lines 21-27. *)
Definition init_command (repoPath : string) : string :=
  let indent := "                " in
  let continued := " && \" +:+ nl +:+ indent in
  nl +:+ indent
  +:+ "mkdir -p " +:+ dq +:+ repoPath +:+ dq +:+ continued
  +:+ "cd " +:+ dq +:+ repoPath +:+ dq +:+ continued
  +:+ "git init --bare" +:+ continued
  +:+ "git config http.receivepack true" +:+ continued
  +:+ "git config http.uploadpack true" +:+ nl +:+ "            ".

Section Provisioning.

(** The shell behind [execSync]: what a command makes of the set of
    existing paths, [None] when it exits with a failure (and
    [execSync] throws). *)
Variable sh : string -> gset string -> option (gset string).

(** The callback of the [forEach] of line 14; the set of existing
    paths is threaded through. *)
Definition provision_repository (p : process) (fs : gset string)
    (repoName : string) : Eff (gset string) :=
  let repoPath := repoPath_of p repoName in
  emit (fs_existsSync repoPath) ;;
  if bool_decide (repoPath ∈ fs) then
    emit (console_log (dq +:+ repoName +:+ dq +:+ " git bare repository already exists")) ;;
    ret fs
  else
    emit (console_log ("Create " +:+ dq +:+ repoName +:+ dq +:+ " git bare repository")) ;;
    emit (child_execSync (init_command repoPath)) ;;
    match sh (init_command repoPath) fs with
    | Some fs' => ret fs'
    | None => throw "Error: Command failed"
    end.

Definition provision (p : process) (names : list string) (fs : gset string)
    : Eff (gset string) :=
  forEach names (provision_repository p) fs.

End Provisioning.

(** What the loop does for a repository that is already there. *)
Definition found_calls (p : process) (repoName : string) : list effect :=
  [ fs_existsSync (repoPath_of p repoName);
    console_log (dq +:+ repoName +:+ dq +:+ " git bare repository already exists") ].

(** ** Reading a trace *)

(** Calls that fix the status line or a header of the response. *)
Definition is_head (e : effect) : bool :=
  match e with
  | res_statusCode _ | res_setHeader _ _ => true
  | _ => false
  end.

(** Calls that put body bytes on the wire. *)
Definition is_body (e : effect) : bool :=
  match e with
  | res_write _ | res_end (Some _) => true
  | _ => false
  end.

(** Calls that start a process or touch the filesystem. *)
Definition is_outside (e : effect) : bool :=
  match e with
  | child_spawn _ _ _ | child_execSync _ | fs_existsSync _ => true
  | _ => false
  end.

Definition head_calls (t : list effect) : list effect := List.filter is_head t.

(** The calls that set the response head or write body bytes. *)
Definition is_res_call (e : effect) : bool := is_head e || is_body e.

Definition res_calls (t : list effect) : list effect := List.filter is_res_call t.

(** The bytes passed to [res.write], in order. *)
Definition body_bytes (t : list effect) : list byte :=
  flat_map (fun e => match e with res_write chunk => chunk | _ => [] end) t.

(** No status or header call comes after a body call. *)
Fixpoint head_before_body (t : list effect) : bool :=
  match t with
  | [] => true
  | e :: t' =>
      if is_body e then forallb (fun e' => negb (is_head e')) t'
      else head_before_body t'
  end.

Definition is_error (ev : backend_event) : bool :=
  match ev with
  | child_error _ => true
  | _ => false
  end.

(** The backend was spawned: the child never emits [error]. *)
Definition error_free (events : list backend_event) : bool :=
  forallb (fun ev => negb (is_error ev)) events.

(** The child emits [error] only when it could not be spawned, and
    then first; its standard output then carries no data. *)
Definition is_quiet (ev : backend_event) : bool :=
  match ev with
  | stdout_end | stderr_data _ => true
  | _ => false
  end.

Definition spawn_failed (events : list backend_event) : bool :=
  match events with
  | child_error _ :: rest => forallb is_quiet rest
  | _ => false
  end.

(** The event sequences of one backend: spawned, or failed to spawn. *)
Definition backend_run (events : list backend_event) : bool :=
  error_free events || spawn_failed events.

(** The bytes of the backend's standard output, over all its chunks. *)
Definition stdout_bytes (events : list backend_event) : list byte :=
  flat_map (fun ev => match ev with stdout_data chunk => chunk | _ => [] end) events.

Definition fresh_proxy : proxy :=
  {| responseHeaders := Obj.empty; headersParsed := false; responseBuffer := [] |}.


(** ** Sample inputs *)

Definition sample_process : process :=
  {| process_env := {["HOME" := "/home/git"]};
     GIT_PROJECT_ROOT := "/srv/git-server-volume" |}.

Definition sample_request (verb path : string) : IncomingMessage :=
  {| method := verb;
     url := Some {| pathname := path; searchParams := [("service", "git-upload-pack")] |};
     headers := {["host" := "localhost:3334"]};
     socket_remoteAddress := Some "127.0.0.1" |}.

(** A platform decoder for the samples: one character per byte. *)
Definition sample_toString (b : list byte) : string := String.string_of_list_byte b.

Definition bytes (s : string) : list byte := String.list_byte_of_string s.

(** A backend response whose delimiter is cut by a chunk boundary, and
    whose body holds the delimiter once more. *)
Definition sample_chunks : list (list byte) :=
  [ bytes ("Status: 404 Not Found" +:+ CRLF +:+ "Content-");
    bytes ("Type: text/plain" +:+ String "013" EmptyString);
    bytes (String "010" CRLF +:+ "body" +:+ CRLF +:+ CRLF +:+ "more") ].

Definition sample_head : list byte :=
  bytes ("Status: 404 Not Found" +:+ CRLF +:+ "Content-Type: text/plain").

Definition sample_body : list byte :=
  bytes ("body" +:+ CRLF +:+ CRLF +:+ "more").

(** A shell for the samples: the command always succeeds and leaves one
    more path behind. *)
Definition sample_sh (created : string) (command : string) (fs : gset string)
    : option (gset string) :=
  Some ({[ created ]} ∪ fs).

(** A shell that sets up all three sample repositories at once, and
    one whose commands all fail. *)
Definition sample_shell_all (command : string) (fs : gset string)
    : option (gset string) :=
  Some ({[ "/srv/git-server-volume/repos1.git";
           "/srv/git-server-volume/repos2.git";
           "/srv/git-server-volume/repos3.git" ]} ∪ fs).

Definition sample_shell_failing (command : string) (fs : gset string)
    : option (gset string) := None.

(** ** Request targets *)

(** [req.url] is the request target as the client sent it.  [Target]
    follows the URL Standard's parser, run as
    [new URL(target, 'http://localhost')], on the targets it covers:
    those in origin form (a leading slash) made of printable ASCII other
    than [^], whose authority, if the target begins with two slashes,
    is empty.  Hosts are not parsed here. *)
Module Target.

Definition covered_char (c : ascii) : bool :=
  let n := nat_of_ascii c in
  ((33 <=? n) && (n <=? 126) && negb (n =? 94))%nat.

Fixpoint covered (s : string) : bool :=
  match s with
  | EmptyString => true
  | String c s' => covered_char c && covered s'
  end.

(** In an http URL the backslash separates segments as the slash does. *)
Definition is_separator (c : ascii) : bool :=
  Ascii.eqb c "/" || Ascii.eqb c "\".

Definition ends_path (c : ascii) : bool :=
  Ascii.eqb c "?" || Ascii.eqb c "#".

(** The path percent-encode set, on the characters covered. *)
Definition path_encode (c : ascii) : string :=
  let n := nat_of_ascii c in
  if ((n =? 34) || (n =? 60) || (n =? 62) || (n =? 96) || (n =? 123) || (n =? 125))%nat
  then String "%" (String (hex_digit (n / 16)) (String (hex_digit (n mod 16)) EmptyString))
  else String c EmptyString.

Definition is_single_dot (segment : string) : bool :=
  let l := Text.toLowerCase segment in
  String.eqb l "." || String.eqb l "%2e".

Definition is_double_dot (segment : string) : bool :=
  let l := Text.toLowerCase segment in
  String.eqb l ".." || String.eqb l ".%2e" || String.eqb l "%2e."
  || String.eqb l "%2e%2e".

(** The end of a segment, in the path state.  [path] holds the segments
    so far, the last one first; [at_separator] tells whether a slash
    ended the segment. *)
Definition close_segment (path : list string) (segment : string)
    (at_separator : bool) : list string :=
  if is_double_dot segment then
    if at_separator then tail path else EmptyString :: tail path
  else if is_single_dot segment then
    if at_separator then path else EmptyString :: path
  else segment :: path.

(** The path state: the segments, and what is left from [?] or [#] on. *)
Fixpoint path_state (path : list string) (buffer : string) (s : string)
    : list string * string :=
  match s with
  | EmptyString => (close_segment path (Text.reverse buffer) false, EmptyString)
  | String c s' =>
      if is_separator c
      then path_state (close_segment path (Text.reverse buffer) true) EmptyString s'
      else if ends_path c
      then (close_segment path (Text.reverse buffer) false, s)
      else path_state path (Text.rev_append (path_encode c) buffer) s'
  end.

(** [url.pathname] *)
Definition serialize_path (path : list string) : string :=
  fold_left (fun acc segment => acc +:+ "/" +:+ segment) (rev path) EmptyString.

Fixpoint skip_separators (s : string) : string :=
  match s with
  | String c s' => if is_separator c then skip_separators s' else s
  | EmptyString => s
  end.

Inductive outcome : Type :=
| Parsed (pathname rest : string)
| Throws.

(** [None] where the target is not covered. *)
Definition new_URL (target : string) : option outcome :=
  if negb (covered target) then None
  else match target with
       | String "/" after =>
           match after with
           | String c _ =>
               if is_separator c then
                 match skip_separators after with
                 | EmptyString => Some Throws
                 | String c' _ => if ends_path c' then Some Throws else None
                 end
               else
                 let '(path, rest) := path_state [] EmptyString after in
                 Some (Parsed (serialize_path path) rest)
           | EmptyString => Some (Parsed "/" EmptyString)
           end
       | _ => None
       end.

(** The request that Node hands to [requestHandler] for a request line
    with a covered target without query or fragment, and no headers. *)
Definition incoming (verb target : string) : option IncomingMessage :=
  match new_URL target with
  | Some (Parsed p EmptyString) =>
      Some {| method := verb;
              url := Some {| pathname := p; searchParams := [] |};
              headers := ∅;
              socket_remoteAddress := None |}
  | Some Throws =>
      Some {| method := verb; url := None; headers := ∅;
              socket_remoteAddress := None |}
  | _ => None
  end.

End Target.

(** ** Node's side of the calls *)

(** [requestHandler] and the listeners above give the calls that the
    code makes, in program order, were each of them to return.  Node
    decides whether a call returns or throws; nothing in [server.js]
    catches an exception, so a call that throws ends the handler or
    listener that made it and, with it, the process.  [Node] holds what
    that decision depends on and replays the calls against it. *)
Module Node.

(** How [spawn] can turn out.  After [EMFILE] and [ENFILE] the child
    object has no [stdin], [stdout] and [stderr]. *)
Inductive spawn_result : Type :=
| spawned
| failed_with_streams
| failed_without_streams
| spawn_threw.

(** The part of the response object that its methods look at. *)
Record response : Type := {
  statusCode : number;
  headersSent : bool;
  finished : bool
}.

Record world : Type := {
  child : spawn_result;
  res : response
}.

Definition fresh_response : response :=
  {| statusCode := Int 200; headersSent := false; finished := false |}.

Definition fresh_world (c : spawn_result) : world :=
  {| child := c; res := fresh_response |}.

(** [n | 0] *)
Definition ToInt32 (n : number) : Z :=
  match n with
  | Int z => (z + 2 ^ 31) mod 2 ^ 32 - 2 ^ 31
  | _ => 0
  end.

(** [writeHead] accepts the status codes from 100 to 999. *)
Definition valid_status (n : number) : bool :=
  let code := ToInt32 n in (100 <=? code) && (code <=? 999).

(** The characters of an HTTP token. *)
Definition token_char (c : ascii) : bool :=
  let n := nat_of_ascii c in
  ((48 <=? n) && (n <=? 57) || (65 <=? n) && (n <=? 90) || (94 <=? n) && (n <=? 122)
   || (n =? 33) || (35 <=? n) && (n <=? 39) || (n =? 42) || (n =? 43)
   || (n =? 45) || (n =? 46) || (n =? 124) || (n =? 126))%nat.

Fixpoint all_chars (f : ascii -> bool) (s : string) : bool :=
  match s with
  | EmptyString => true
  | String c s' => f c && all_chars f s'
  end.

Definition is_token (name : string) : bool :=
  negb (String.eqb name "") && all_chars token_char name.

(** A header value may hold TAB and the code points U+0020..U+007E and
    U+0080..U+00FF; in UTF-8 the latter are the two-byte sequences that
    start with C2 or C3. *)
Fixpoint valid_value_from (pending : bool) (s : string) : bool :=
  match s with
  | EmptyString => negb pending
  | String c s' =>
      let n := nat_of_ascii c in
      if pending then ((128 <=? n) && (n <=? 191))%nat && valid_value_from false s'
      else if ((n =? 9) || (32 <=? n) && (n <=? 126))%nat then valid_value_from false s'
      else if ((n =? 194) || (n =? 195))%nat then valid_value_from true s'
      else false
  end.

Definition valid_value (value : string) : bool := valid_value_from false value.

Definition sent (r : response) : response :=
  {| statusCode := statusCode r; headersSent := true; finished := finished r |}.

Definition ended (r : response) : response :=
  {| statusCode := statusCode r; headersSent := true; finished := true |}.

(** One call: the world after it when it returns, [None] when it
    throws.  Data written to a finished response, by [write] or by
    [end], raises an [error] event on the response, which has no
    listener; [end()] without data on a finished response returns.

    The client is taken to stay connected.  What Node does with the
    bytes of a write that it accepts is not part of the model (it drops
    them when the status code is 204 or 304 and when the request method
    is HEAD): the properties below speak of the calls that are made and
    return. *)
Definition perform (w : world) (e : effect) : option world :=
  let update r := Some {| child := child w; res := r |} in
  match e with
  | child_spawn _ _ _ =>
      match child w with spawn_threw => None | _ => Some w end
  | req_pipe_stdin =>
      match child w with failed_without_streams => None | _ => Some w end
  | res_statusCode code =>
      update {| statusCode := code;
                headersSent := headersSent (res w);
                finished := finished (res w) |}
  | res_setHeader name value =>
      if headersSent (res w) then None
      else if is_token name && valid_value value then Some w
      else None
  | res_write _ =>
      if finished (res w) then None
      else if headersSent (res w) then Some w
      else if valid_status (statusCode (res w)) then update (sent (res w))
      else None
  | res_end data =>
      if finished (res w) then match data with None => Some w | Some _ => None end
      else if headersSent (res w) || valid_status (statusCode (res w))
      then update (ended (res w))
      else None
  | _ => Some w
  end.

Inductive crash : Type :=
| rejected (call : effect)
| exception (message : string)
| unhandled_error_on_stdin.

Inductive fate : Type :=
| alive (w : world)
| dead (why : crash).

(** The calls of [t] that are made and return, and how it ends. *)
Fixpoint run (w : world) (t : list effect) : list effect * fate :=
  match t with
  | [] => ([], alive w)
  | e :: t' =>
      match perform w e with
      | Some w' => (e :: fst (run w' t'), snd (run w' t'))
      | None => ([], dead (rejected e))
      end
  end.

(** What the process meets during a request: an event for one of the
    four listeners, or an [error] on the pipe to the backend's standard
    input (the backend went away before reading the request body), for
    which [server.js] registers no listener. *)
Inductive incident : Type :=
| to_listener (ev : backend_event)
| stdin_error.

Section Process.
Variable Buffer_toString : list byte -> string.

Fixpoint listen (w : world) (st : proxy) (incidents : list incident)
    : list effect * fate :=
  match incidents with
  | [] => ([], alive w)
  | stdin_error :: _ => ([], dead unhandled_error_on_stdin)
  | to_listener ev :: rest =>
      match on_event Buffer_toString st ev with
      | (t, Normal st') =>
          match run w t with
          | (done, alive w') =>
              (done ++ fst (listen w' st' rest), snd (listen w' st' rest))
          | (done, dead why) => (done, dead why)
          end
      | (t, Thrown message) => (fst (run w t), dead (exception message))
      end
  end.

(** One request, as the process lives it. *)
Definition serve (w : world) (p : process) (req : IncomingMessage)
    (incidents : list incident) : list effect * fate :=
  match requestHandler p req with
  | (t, Normal r) =>
      match run w t, r with
      | (done, alive w'), Some st =>
          (done ++ fst (listen w' st incidents), snd (listen w' st incidents))
      | (done, alive w'), None => (done, alive w')
      | (done, dead why), _ => (done, dead why)
      end
  | (t, Thrown message) => (fst (run w t), dead (exception message))
  end.

End Process.

(** No call of [t] is rejected. *)
Definition accepts (w : world) (t : list effect) : bool :=
  match snd (run w t) with
  | alive _ => true
  | dead _ => false
  end.

End Node.

(** Every [setHeader] call of [t] has a name and a value that Node
    accepts. *)
Definition headers_ok (t : list effect) : bool :=
  forallb (fun e => match e with
                    | res_setHeader name value =>
                        Node.is_token name && Node.valid_value value
                    | _ => true
                    end) t.

(** The status code of the response after the calls of [t]. *)
Definition status_after (t : list effect) (initial : number) : number :=
  fold_left (fun code e => match e with res_statusCode n => n | _ => code end)
            t initial.

(** The world with the response's status code set and its head not
    sent. *)
Definition open_response (w : Node.world) (code : number) : Node.world :=
  {| Node.child := Node.child w;
     Node.res := {| Node.statusCode := code; Node.headersSent := false;
                    Node.finished := Node.finished (Node.res w) |} |}.

(** Calls that Node accepts on a response whose status code is valid,
    whether or not it has ended. *)
Definition is_harmless (e : effect) : bool :=
  match e with
  | console_log _ | console_error _ _ | res_end None => true
  | _ => false
  end.

(** ** Vocabulary of the further properties *)

(** The variables that [handleGitRequest] sets itself (lines 41-53). *)
Definition cgi_names : list string :=
  [ "GIT_PROJECT_ROOT"; "GIT_HTTP_EXPORT_ALL"; "PATH_INFO"; "REQUEST_METHOD";
    "QUERY_STRING"; "CONTENT_TYPE"; "CONTENT_LENGTH"; "HTTP_USER_AGENT";
    "HTTP_AUTHORIZATION"; "REMOTE_ADDR"; "REMOTE_USER"; "SERVER_NAME";
    "SERVER_PORT" ].

(** The own property names of an object, in creation order. *)
Definition obj_keys (o : Obj.t) : list string := map fst o.

(** A header name that the translation forwards. *)
Definition forwardable (name : string) : Prop :=
  name <> "" /\ Text.toLowerCase name <> "status" /\ name <> "__proto__"
  /\ Text.free_of ":" name.

(** The names passed to [res.setHeader], in call order. *)
Definition header_names (t : list effect) : list string :=
  flat_map (fun e => match e with res_setHeader name _ => [name] | _ => [] end) t.

Definition is_stderr (ev : backend_event) : bool :=
  match ev with
  | stderr_data _ => true
  | _ => false
  end.

Definition is_log (e : effect) : bool :=
  match e with
  | console_log _ | console_error _ _ => true
  | _ => false
  end.


(** A run without what the backend wrote to its standard error. *)
Definition without_stderr (events : list backend_event) : list backend_event :=
  List.filter (fun ev => negb (is_stderr ev)) events.

(** The calls other than those on [console]. *)
Definition non_log_calls (t : list effect) : list effect :=
  List.filter (fun e => negb (is_log e)) t.

(** One [name=value] pair of a serialised query. *)
Definition form_pair (kv : string * string) : string :=
  urlencode (fst kv) +:+ "=" +:+ urlencode (snd kv).

(** * Properties *)

(** ** Strings *)

Module TextFacts.
Import Text.

Lemma app_String c s t : String c s +:+ t = String c (s +:+ t).
Proof. reflexivity. Qed.

Lemma app_empty_r s : s +:+ "" = s.
Proof. induction s as [|c s IH]; [reflexivity|]. now rewrite app_String, IH. Qed.

Lemma app_assoc s t u : (s +:+ t) +:+ u = s +:+ t +:+ u.
Proof.
  induction s as [|c s IH]; [reflexivity|]. now rewrite !app_String, IH.
Qed.

Lemma length_app s t :
  String.length (s +:+ t) = (String.length s + String.length t)%nat.
Proof.
  induction s as [|c s IH]; [reflexivity|].
  rewrite app_String. simpl. now rewrite IH.
Qed.

Lemma startsWith_app p r : startsWith p (p +:+ r) = true.
Proof.
  induction p as [|c p IH]; [reflexivity|].
  rewrite app_String. simpl. now rewrite Ascii.eqb_refl.
Qed.

Lemma startsWith_inv p s : startsWith p s = true -> exists r, s = p +:+ r.
Proof.
  revert s. induction p as [|c p IH]; intros s H.
  - now exists s.
  - destruct s as [|d s]; [discriminate|]. simpl in H.
    destruct (Ascii.eqb c d) eqn:E; [|discriminate].
    apply Ascii.eqb_eq in E. subst d.
    destruct (IH _ H) as [r ->]. now exists r.
Qed.

Lemma substring_from_app p r : substring_from (String.length p) (p +:+ r) = r.
Proof. induction p as [|c p IH]; [now destruct r|]. exact IH. Qed.

Lemma includes_intro a sub b : includes sub (a +:+ sub +:+ b) = true.
Proof.
  induction a as [|c a IH].
  - change ("" +:+ sub +:+ b) with (sub +:+ b).
    destruct (sub +:+ b) eqn:E; simpl; rewrite <- E, startsWith_app; reflexivity.
  - rewrite app_String. simpl includes. rewrite IH. apply orb_true_r.
Qed.

Lemma includes_inv sub s :
  includes sub s = true -> exists a b, s = a +:+ sub +:+ b.
Proof.
  induction s as [|c s IH]; simpl; intros H.
  - rewrite orb_false_r in H. apply startsWith_inv in H as [r ->].
    now exists "", r.
  - apply orb_true_iff in H as [H|H].
    + apply startsWith_inv in H as [r ->]. now exists "", r.
    + destruct (IH H) as (a & b & ->). now exists (String c a), b.
Qed.

Lemma includes_false sub s :
  (forall a b, s <> a +:+ sub +:+ b) -> includes sub s = false.
Proof.
  intros H. destruct (includes sub s) eqn:E; [|reflexivity].
  apply includes_inv in E as (a & b & ->). now destruct (H a b).
Qed.

Lemma rev_append_app cur s : rev_append cur s = rev_append cur "" +:+ s.
Proof.
  revert s. induction cur as [|c cur IH]; intros s; [reflexivity|].
  simpl. rewrite (IH (String c s)), (IH (String c "")).
  now rewrite app_assoc.
Qed.

Lemma free_of_cons c x s : free_of c (String x s) -> x <> c /\ free_of c s.
Proof.
  intros H. split.
  - intros ->. now apply (H "" s).
  - intros a b ->. now apply (H (String x a) b).
Qed.

Lemma split_from_nonempty sep k cur s : split_from sep k cur s <> [].
Proof.
  revert k cur. induction s as [|c s IH]; intros k cur; simpl; [discriminate|].
  destruct k; [|apply IH].
  destruct (startsWith sep (String c s)); [discriminate|apply IH].
Qed.

(** Splitting at a one-character separator: the piece before its
    first occurrence, then the pieces of the rest. *)
Lemma split_from_hit c cur name rest :
  free_of c name ->
  split_from (String c "") 0 cur (name +:+ String c rest)
  = (rev_append cur "" +:+ name) :: split_from (String c "") 0 "" rest.
Proof.
  revert cur. induction name as [|x name IH]; intros cur Hfree.
  - change ("" +:+ String c rest) with (String c rest). simpl.
    rewrite Ascii.eqb_refl. now rewrite app_empty_r.
  - apply free_of_cons in Hfree as [Hx Hfree].
    rewrite app_String. simpl.
    destruct (Ascii.eqb c x) eqn:E.
    + apply Ascii.eqb_eq in E. congruence.
    + rewrite (IH _ Hfree). simpl. f_equal.
      rewrite (rev_append_app cur (String x "")).
      now rewrite app_assoc.
Qed.

Lemma split_from_free c cur s :
  free_of c s ->
  split_from (String c "") 0 cur s = [rev_append cur "" +:+ s].
Proof.
  revert cur. induction s as [|x s IH]; intros cur Hfree.
  - simpl. now rewrite app_empty_r.
  - apply free_of_cons in Hfree as [Hx Hfree]. simpl.
    destruct (Ascii.eqb c x) eqn:E.
    + apply Ascii.eqb_eq in E. congruence.
    + rewrite (IH _ Hfree). simpl.
      rewrite (rev_append_app cur (String x "")).
      now rewrite app_assoc.
Qed.

(** Joining the pieces with the separator gives the string back. *)
Lemma join_split_from c cur s :
  join (String c "") (split_from (String c "") 0 cur s) = rev_append cur "" +:+ s.
Proof.
  revert cur. induction s as [|x s IH]; intros cur.
  - simpl. now rewrite app_empty_r.
  - simpl. destruct (Ascii.eqb c x) eqn:E.
    + apply Ascii.eqb_eq in E. subst x.
      pose proof (split_from_nonempty (String c "") 0 "" s) as Hne.
      specialize (IH ""). simpl in *.
      destruct (split_from (String c "") 0 "" s) as [|q qs]; [contradiction|].
      now rewrite IH.
    + rewrite IH. simpl.
      rewrite (rev_append_app cur (String x "")).
      now rewrite app_assoc.
Qed.

Lemma join_split c s : join (String c "") (split (String c "") s) = s.
Proof. unfold split. now rewrite join_split_from. Qed.

Lemma split_hit c name rest :
  free_of c name ->
  split (String c "") (name +:+ String c rest) = name :: split (String c "") rest.
Proof. intros H. unfold split. now rewrite split_from_hit. Qed.

Lemma split_free c s : free_of c s -> split (String c "") s = [s].
Proof. intros H. unfold split. now rewrite split_from_free. Qed.

End TextFacts.

(** ** Objects *)

Module ObjFacts.
Import Obj.

Lemma In_insert_sorted x i kv l :
  In x (insert_sorted i kv l) <-> x = (i, kv) \/ In x l.
Proof.
  induction l as [|[j kv'] l IH]; simpl.
  - intuition.
  - destruct (i <? j)%N; simpl; [intuition|].
    rewrite IH. intuition.
Qed.

Lemma In_indexed kv o :
  In kv (map snd (indexed o)) <-> In kv o /\ array_index (fst kv) <> None.
Proof.
  induction o as [|kv' o IH]; simpl.
  - intuition.
  - destruct (array_index (fst kv')) as [i|] eqn:E.
    + rewrite in_map_iff. split.
      * intros ([j x] & Hx & Hin). simpl in Hx. subst x.
        apply In_insert_sorted in Hin as [Heq|Hin].
        -- inversion Heq; subst. split; [now left|congruence].
        -- assert (In kv (map snd (indexed o))) as H
             by (apply in_map_iff; now exists (j, kv)).
           apply IH in H. intuition.
      * intros [[->|Hin] Hidx].
        -- exists (i, kv). split; [reflexivity|].
           apply In_insert_sorted. now left.
        -- assert (In kv (map snd (indexed o))) as H by (apply IH; auto).
           apply in_map_iff in H as ([j x] & Hx & H). simpl in Hx. subst x.
           exists (j, kv). split; [reflexivity|].
           apply In_insert_sorted. now right.
    + rewrite IH. split; [intuition|].
      intros [[->|Hin] Hidx]; [congruence|auto].
Qed.

Lemma In_named kv o :
  In kv (named o) <-> In kv o /\ array_index (fst kv) = None.
Proof.
  induction o as [|kv' o IH]; simpl.
  - intuition.
  - destruct (array_index (fst kv')) as [i|] eqn:E; simpl; rewrite IH.
    + split; [intuition|]. intros [[->|Hin] Hidx]; [congruence|auto].
    + split; [intuition; subst; auto|]. intuition.
Qed.

(** Enumeration reorders the properties and loses none. *)
Lemma In_entries kv o : In kv (entries o) <-> In kv o.
Proof.
  unfold entries. rewrite in_app_iff, In_indexed, In_named.
  destruct (array_index (fst kv)); intuition congruence.
Qed.


End ObjFacts.

(** ** The effect monad *)

Lemma forEach_emit {A} (f : A -> effect) (l : list A) :
  forEach l (fun _ a => emit (f a)) tt = (map f l, Normal tt).
Proof.
  induction l as [|a l IH]; [reflexivity|].
  simpl. unfold bind. simpl. now rewrite IH.
Qed.

Lemma bind_Normal {A B} (m : Eff A) (k : A -> Eff B) t a :
  m = (t, Normal a) -> bind m k = (t ++ fst (k a), snd (k a)).
Proof. now intros ->. Qed.

Lemma forEach_app {A S} (f : S -> A -> Eff S) l1 l2 s t1 s1 :
  forEach l1 f s = (t1, Normal s1) ->
  forEach (l1 ++ l2) f s = (t1 ++ fst (forEach l2 f s1), snd (forEach l2 f s1)).
Proof.
  revert s t1. induction l1 as [|a l1 IH]; intros s t1 H; simpl in *.
  - inversion H; subst. now destruct (forEach l2 f s1).
  - unfold bind in *. destruct (f s a) as [ta [sa|e]]; [|discriminate].
    destruct (forEach l1 f sa) as [tb [sb|e]] eqn:E; simpl in H; [|discriminate].
    inversion H; subst. rewrite (IH _ _ E). simpl.
    now rewrite app_assoc.
Qed.

Lemma set_headers_trace (o : Obj.t) :
  set_headers o
  = (map (fun kv => res_setHeader (fst kv) (snd kv)) (Obj.entries o), Normal tt).
Proof. apply forEach_emit. Qed.

(** ** Header translation *)

Lemma free_of_check c s :
  Text.includes (String c "") s = false -> Text.free_of c s.
Proof.
  intros H a b ->.
  change (a +:+ String c b) with (a +:+ String c "" +:+ b) in H.
  now rewrite TextFacts.includes_intro in H.
Qed.


Lemma parse_header_named (responseHeaders : Obj.t) (name rest : string) :
  name <> "" -> Text.free_of ":" name ->
  parse_header responseHeaders (name +:+ ":" +:+ rest)
  = if String.eqb (Text.toLowerCase name) "status"
    then ([res_statusCode (Num.parseInt (hd "" (Text.split " " (Text.trim rest))))],
          Normal responseHeaders)
    else ([], Normal (Obj.set name (Text.trim rest) responseHeaders)).
Proof.
  intros Hname Hfree. unfold parse_header.
  change (name +:+ ":" +:+ rest) with (name +:+ String ":" rest).
  rewrite TextFacts.split_hit by assumption.
  apply String.eqb_neq in Hname. rewrite Hname.
  pose proof (TextFacts.split_from_nonempty ":" 0 "" rest) as Hne.
  pose proof (TextFacts.join_split ":" rest) as Hjoin.
  unfold Text.split in *.
  destruct (Text.split_from ":" 0 "" rest) as [|q qs]; [contradiction|].
  rewrite Hjoin.
  destruct (String.eqb (Text.toLowerCase name) "status"); reflexivity.
Qed.


Example status_without_number :
  parse_header Obj.empty "Status: unknown" = ([res_statusCode NaN], Normal Obj.empty).
Proof. reflexivity. Qed.

Example proto_line_swallowed :
  parse_header Obj.empty "__proto__: x" = ([], Normal Obj.empty).
Proof. reflexivity. Qed.

Example later_line_replaces_earlier :
  trace (translate_headers Obj.empty
           ("X-Git: a" +:+ CRLF +:+ "7: seven" +:+ CRLF +:+ "X-Git:  b:c "))
  = [res_setHeader "7" "seven"; res_setHeader "X-Git" "b:c"].
Proof. reflexivity. Qed.

(** ** Routing *)

Lemma not_includes_check sub s :
  Text.includes sub s = false -> forall a b, s <> a +:+ sub +:+ b.
Proof. intros H a b ->. now rewrite TextFacts.includes_intro in H. Qed.

Lemma substring_from_git rest : Text.substring_from 5 ("/git/" +:+ rest) = rest.
Proof. exact (TextFacts.substring_from_app "/git/" rest). Qed.

(** The requests that reach [handleGitRequest]. *)
Lemma requestHandler_dispatch (p : process) (req : IncomingMessage) (u : URL)
    (rest : string) :
  url req = Some u ->
  pathname u = "/git/" +:+ rest ->
  (forall a b, rest <> a +:+ ".." +:+ b) ->
  (forall a b, rest <> a +:+ "//" +:+ b) ->
  requestHandler p req
  = ([child_spawn "git" ["http-backend"] (cgi_env p req u); req_pipe_stdin],
     Normal (Some fresh_proxy)).
Proof.
  intros Hu Hpath Hdots Hslashes. unfold requestHandler, handleGitRequest.
  rewrite Hu, Hpath, TextFacts.startsWith_app, substring_from_git.
  rewrite (TextFacts.includes_false _ _ Hdots), (TextFacts.includes_false _ _ Hslashes).
  reflexivity.
Qed.

Lemma requestHandler_proxied_inv (p : process) (req : IncomingMessage) t0 st0 :
  requestHandler p req = (t0, Normal (Some st0)) ->
  exists u,
    url req = Some u
    /\ t0 = [child_spawn "git" ["http-backend"] (cgi_env p req u); req_pipe_stdin]
    /\ st0 = fresh_proxy.
Proof.
  unfold requestHandler, handleGitRequest.
  destruct (url req) as [u|]; [|discriminate].
  destruct (Text.startsWith "/git/" (pathname u)); [|discriminate].
  destruct (_ || _); [discriminate|].
  intros H. inversion H; subst. now exists u.
Qed.

(** C1 (amended).  A request whose URL parses and whose pathname, as
    the parser returns it (dot segments removed, percent-encoded dots
    included), is [/git/] followed by text that contains [..] or [//] is
    answered with status 400 and the body [Bad Request]; these two calls
    on the response are all the handler does, so no backend is spawned
    and the filesystem is not touched; Node accepts both calls, and the
    response goes out. *)
Theorem C1_traversal_rejected
    (p : process) (req : IncomingMessage) (u : URL) (a sub b : string) :
  url req = Some u ->
  sub = ".." \/ sub = "//" ->
  pathname u = "/git/" +:+ a +:+ sub +:+ b ->
  requestHandler p req
  = ([res_statusCode (Int 400); res_end (Some "Bad Request")], Normal None)
  /\ forallb (fun e => negb (is_outside e)) (trace (requestHandler p req)) = true
  /\ forall c,
       Node.run (Node.fresh_world c) (trace (requestHandler p req))
       = ([res_statusCode (Int 400); res_end (Some "Bad Request")],
          Node.alive {| Node.child := c;
                        Node.res := {| Node.statusCode := Int 400;
                                       Node.headersSent := true;
                                       Node.finished := true |} |}).
Proof.
  intros Hu Hsub Hpath.
  assert (requestHandler p req
          = ([res_statusCode (Int 400); res_end (Some "Bad Request")], Normal None))
    as Heq.
  { unfold requestHandler.
    rewrite Hu, Hpath, TextFacts.startsWith_app, substring_from_git.
    destruct Hsub as [-> | ->]; rewrite TextFacts.includes_intro.
    - reflexivity.
    - rewrite orb_true_r. reflexivity. }
  split; [exact Heq|]. now rewrite Heq.
Qed.

Lemma C1_traversal_rejected_witness :
  requestHandler sample_process (sample_request "GET" "/git/repos1.git/a..b/info/refs")
  = ([res_statusCode (Int 400); res_end (Some "Bad Request")], Normal None).
Proof.
  refine (proj1 (C1_traversal_rejected _ _ _ "repos1.git/a" ".." "b/info/refs" _ _ _)).
  - reflexivity.
  - left. reflexivity.
  - reflexivity.
Defined.

(** C7 (amended).  A request whose URL parses and whose pathname, as
    the parser returns it (dot segments removed), does not begin with
    [/git/] is answered with status 404, [Content-Type: text/plain] and
    the body [Not Found]; nothing else happens, so no backend is
    spawned; Node accepts the three calls, and the response goes out. *)
Theorem C7_other_paths_not_found
    (p : process) (req : IncomingMessage) (u : URL) :
  url req = Some u ->
  (forall rest, pathname u <> "/git/" +:+ rest) ->
  requestHandler p req
  = ([res_statusCode (Int 404);
      res_setHeader "Content-Type" "text/plain";
      res_end (Some "Not Found")], Normal None)
  /\ forallb (fun e => negb (is_outside e)) (trace (requestHandler p req)) = true
  /\ forall c,
       Node.run (Node.fresh_world c) (trace (requestHandler p req))
       = ([res_statusCode (Int 404);
           res_setHeader "Content-Type" "text/plain";
           res_end (Some "Not Found")],
          Node.alive {| Node.child := c;
                        Node.res := {| Node.statusCode := Int 404;
                                       Node.headersSent := true;
                                       Node.finished := true |} |}).
Proof.
  intros Hu Hpath.
  assert (Text.startsWith "/git/" (pathname u) = false) as Hstart.
  { destruct (Text.startsWith "/git/" (pathname u)) eqn:E; [|reflexivity].
    apply TextFacts.startsWith_inv in E as [rest E]. now destruct (Hpath rest). }
  unfold requestHandler. rewrite Hu, Hstart. repeat split.
Qed.

Lemma not_startsWith_check prefix s :
  Text.startsWith prefix s = false -> forall rest, s <> prefix +:+ rest.
Proof. intros H rest ->. now rewrite TextFacts.startsWith_app in H. Qed.

Lemma C7_other_paths_not_found_witness :
  requestHandler sample_process (sample_request "GET" "/gitx/repos1.git")
  = ([res_statusCode (Int 404);
      res_setHeader "Content-Type" "text/plain";
      res_end (Some "Not Found")], Normal None).
Proof.
  refine (proj1 (C7_other_paths_not_found _ _ _ _ _)).
  - reflexivity.
  - apply not_startsWith_check. reflexivity.
Defined.

(** C5, as the spec states it, fails: [server.js] never looks at the
    method or the content type.  A POST to the advertisement endpoint
    and a GET without content type to an RPC endpoint are both handed to
    the backend. *)
Lemma C5_mismatched_method_dispatched :
  trace (requestHandler sample_process (sample_request "POST" "/git/repos1.git/info/refs"))
  = [child_spawn "git" ["http-backend"]
       (cgi_env sample_process (sample_request "POST" "/git/repos1.git/info/refs")
          {| pathname := "/git/repos1.git/info/refs";
             searchParams := [("service", "git-upload-pack")] |});
     req_pipe_stdin]
  /\ existsb is_outside
       (trace (requestHandler sample_process
                 (sample_request "GET" "/git/repos1.git/git-receive-pack"))) = true.
Proof. split; reflexivity. Qed.

Lemma cgi_env_method (p : process) (req : IncomingMessage) (u : URL) :
  cgi_env p req u !! "REQUEST_METHOD" = Some (method req).
Proof.
  unfold cgi_env. apply lookup_union_Some_l. simpl.
  repeat (rewrite lookup_insert_ne by discriminate).
  apply lookup_insert_eq.
Qed.

Lemma cgi_env_content_type (p : process) (req : IncomingMessage) (u : URL) :
  cgi_env p req u !! "CONTENT_TYPE"
  = Some (or_else (headers req !! "content-type") "").
Proof.
  unfold cgi_env. apply lookup_union_Some_l. simpl.
  repeat (rewrite lookup_insert_ne by discriminate).
  apply lookup_insert_eq.
Qed.

(** C5 (amended).  The router makes no method or content-type check of
    its own: every request whose pathname is [/git/] followed by text
    without [..] and [//] is dispatched, whatever its method and content
    type, and both are passed on to the backend unchanged, as
    [REQUEST_METHOD] and [CONTENT_TYPE] (empty when the header is
    absent).  Rejecting a mismatch is left to [git http-backend]. *)
Theorem C5_dispatch_passes_method_on
    (p : process) (req : IncomingMessage) (u : URL) (rest : string) :
  url req = Some u ->
  pathname u = "/git/" +:+ rest ->
  (forall a b, rest <> a +:+ ".." +:+ b) ->
  (forall a b, rest <> a +:+ "//" +:+ b) ->
  requestHandler p req
  = ([child_spawn "git" ["http-backend"] (cgi_env p req u); req_pipe_stdin],
     Normal (Some fresh_proxy))
  /\ cgi_env p req u !! "REQUEST_METHOD" = Some (method req)
  /\ cgi_env p req u !! "CONTENT_TYPE"
     = Some (or_else (headers req !! "content-type") "").
Proof.
  intros Hu Hpath Hdots Hslashes. split; [|split].
  - now apply requestHandler_dispatch with (rest := rest).
  - apply cgi_env_method.
  - apply cgi_env_content_type.
Qed.

Lemma C5_dispatch_passes_method_on_witness :
  cgi_env sample_process (sample_request "DELETE" "/git/repos1.git/info/refs")
    {| pathname := "/git/repos1.git/info/refs";
       searchParams := [("service", "git-upload-pack")] |} !! "REQUEST_METHOD"
  = Some "DELETE".
Proof.
  refine (proj1 (proj2 (C5_dispatch_passes_method_on sample_process
            (sample_request "DELETE" "/git/repos1.git/info/refs") _
            "repos1.git/info/refs" _ _ _ _))).
  - reflexivity.
  - reflexivity.
  - apply not_includes_check. reflexivity.
  - apply not_includes_check. reflexivity.
Defined.

(** ** The listeners' own code runs to its end *)

Lemma forEach_total {A S} (f : S -> A -> Eff S) :
  (forall s a, exists t s', f s a = (t, Normal s')) ->
  forall l s, exists t s', forEach l f s = (t, Normal s').
Proof.
  intros Hf l. induction l as [|a l IH]; intros s.
  - now exists [], s.
  - destruct (Hf s a) as (t1 & s1 & H1). destruct (IH s1) as (t2 & s2 & H2).
    exists (t1 ++ t2), s2. simpl. rewrite (bind_Normal _ _ _ _ H1). now rewrite H2.
Qed.

Lemma parse_header_total (o : Obj.t) (header : string) :
  exists t o', parse_header o header = (t, Normal o').
Proof.
  unfold parse_header.
  destruct (Text.split ":" header) as [|key valueParts]; [now eexists _, _|].
  destruct (_ && _); [|now eexists _, _].
  destruct (String.eqb _ _); now eexists _, _.
Qed.

Lemma translate_headers_total (o : Obj.t) (section : string) :
  exists t o', translate_headers o section = (t, Normal o').
Proof.
  unfold translate_headers.
  destruct (forEach_total parse_header parse_header_total
              (Text.split CRLF section) o) as (t & o' & H).
  rewrite (bind_Normal _ _ _ _ H), set_headers_trace. now eexists _, _.
Qed.

Section Listeners.
Variable Buffer_toString : list byte -> string.

Lemma on_event_total (st : proxy) (ev : backend_event) :
  exists t st', on_event Buffer_toString st ev = (t, Normal st').
Proof.
  destruct ev as [error|chunk| |data]; simpl; try (now eexists _, _).
  unfold on_stdout_data.
  destruct (headersParsed st); simpl; [now eexists _, _|].
  destruct (indexOf CRLFCRLF _) as [i|]; [|now eexists _, _].
  destruct (translate_headers_total (responseHeaders st)
              (Buffer_toString (take i (responseBuffer st ++ chunk))))
    as (t & o' & H).
  rewrite (bind_Normal _ _ _ _ H).
  destruct (0 <? _); now eexists _, _.
Qed.

Lemma events_total (events : list backend_event) (st : proxy) :
  exists t st', forEach events (on_event Buffer_toString) st = (t, Normal st').
Proof. apply forEach_total, on_event_total. Qed.

End Listeners.

(** ** Searching a buffer *)

Section BufferFacts.
Context {A : Type} `{EqDecision A}.
Local Open Scope nat_scope.
Implicit Types needle hay pre post : list A.

Lemma starts_app needle rest : starts needle (needle ++ rest) = true.
Proof.
  induction needle as [|a needle IH]; [reflexivity|].
  simpl. rewrite IH. now rewrite bool_decide_eq_true_2.
Qed.

Lemma starts_inv needle hay :
  starts needle hay = true -> exists rest, hay = needle ++ rest.
Proof.
  revert hay. induction needle as [|a needle IH]; intros hay H.
  - now exists hay.
  - destruct hay as [|b hay]; [discriminate|]. simpl in H.
    apply andb_true_iff in H as [Hab H].
    apply bool_decide_eq_true_1 in Hab. subst b.
    destruct (IH _ H) as [rest ->]. now exists rest.
Qed.

Lemma starts_app_long needle hay more :
  length needle <= length hay ->
  starts needle (hay ++ more) = starts needle hay.
Proof.
  revert hay. induction needle as [|a needle IH]; intros hay Hlen; [reflexivity|].
  destruct hay as [|b hay]; simpl in *; [lia|].
  rewrite IH by lia. reflexivity.
Qed.

Lemma indexOf_bound needle hay i :
  indexOf needle hay = Some i -> i + length needle <= length hay.
Proof.
  revert i. induction hay as [|b hay IH]; intros i; simpl.
  - destruct (starts needle []) eqn:E; [|discriminate].
    intros [= <-]. apply starts_inv in E as [rest E].
    destruct needle; [simpl; lia|discriminate].
  - destruct (starts needle (b :: hay)) eqn:E.
    + intros [= <-]. apply starts_inv in E as [rest E].
      apply (f_equal length) in E. rewrite length_app in E. simpl in E. lia.
    + destruct (indexOf needle hay) as [j|]; [|discriminate].
      intros [= <-]. specialize (IH j eq_refl). simpl. lia.
Qed.

(** The index found is that of an occurrence ... *)
Lemma indexOf_occurrence needle hay i :
  indexOf needle hay = Some i ->
  exists post, hay = take i hay ++ needle ++ post.
Proof.
  revert i. induction hay as [|b hay IH]; intros i; simpl.
  - destruct (starts needle []) eqn:E; [|discriminate].
    intros [= <-]. apply starts_inv in E as [rest E]. now exists rest.
  - destruct (starts needle (b :: hay)) eqn:E.
    + intros [= <-]. apply starts_inv in E as [rest E]. now exists rest.
    + destruct (indexOf needle hay) as [j|]; [|discriminate].
      intros [= <-]. destruct (IH j eq_refl) as [post Hpost].
      exists post. simpl. now rewrite <- Hpost.
Qed.

(** ... and no occurrence starts before it. *)
Lemma indexOf_least needle hay i pre post :
  indexOf needle hay = Some i ->
  hay = pre ++ needle ++ post ->
  i <= length pre.
Proof.
  revert i pre. induction hay as [|b hay IH]; intros i pre; simpl.
  - destruct (starts needle []); [|discriminate]. intros [= <-] _. lia.
  - destruct (starts needle (b :: hay)) eqn:E.
    + intros [= <-] _. lia.
    + destruct (indexOf needle hay) as [j|] eqn:Ej; [|discriminate].
      intros [= <-] Hdec. destruct pre as [|c pre].
      * simpl in Hdec. rewrite Hdec, starts_app in E. discriminate.
      * simpl in Hdec. injection Hdec as _ Hdec.
        specialize (IH j pre eq_refl Hdec). simpl. lia.
Qed.

Lemma indexOf_found needle hay pre post :
  hay = pre ++ needle ++ post -> exists i, indexOf needle hay = Some i.
Proof.
  revert hay. induction pre as [|c pre IH]; intros hay ->.
  - simpl app. destruct (needle ++ post) eqn:E; simpl;
      rewrite <- E, starts_app; now eexists.
  - simpl. destruct (starts needle (c :: pre ++ needle ++ post)); [now eexists|].
    destruct (IH _ eq_refl) as [i ->]. now eexists.
Qed.



(** The first occurrence, given as a decomposition of the buffer. *)
Lemma indexOf_first needle hay pre post :
  hay = pre ++ needle ++ post ->
  (forall pre' post', hay = pre' ++ needle ++ post' -> length pre <= length pre') ->
  indexOf needle hay = Some (length pre).
Proof.
  intros Hdec Hmin.
  destruct (indexOf_found _ _ _ _ Hdec) as [i Hi].
  pose proof (indexOf_least _ _ _ _ _ Hi Hdec) as Hle.
  destruct (indexOf_occurrence _ _ _ Hi) as [post' Hpost'].
  pose proof (indexOf_bound _ _ _ Hi) as Hb.
  specialize (Hmin _ _ Hpost'). rewrite length_take in Hmin.
  rewrite Hi. f_equal. lia.
Qed.

(** More input does not move the first occurrence. *)
Lemma indexOf_app needle hay more i :
  indexOf needle hay = Some i -> indexOf needle (hay ++ more) = Some i.
Proof.
  revert i. induction hay as [|b hay IH]; intros i.
  - simpl. destruct (starts needle []) eqn:E; [|discriminate].
    intros [= <-]. apply starts_inv in E as [rest E].
    destruct needle; [|discriminate]. now destruct more.
  - intros Hi. pose proof (indexOf_bound _ _ _ Hi) as Hb. simpl in Hi |- *.
    destruct (starts needle (b :: hay)) eqn:E.
    + injection Hi as <-.
      apply starts_inv in E as [rest E].
      change (b :: hay ++ more) with ((b :: hay) ++ more).
      rewrite E, <- !app_assoc, starts_app. reflexivity.
    + destruct (indexOf needle hay) as [j|] eqn:Ej; [|discriminate].
      injection Hi as <-.
      change (b :: hay ++ more) with ((b :: hay) ++ more).
      rewrite starts_app_long, E by (simpl in *; lia).
      now rewrite (IH j eq_refl).
Qed.

End BufferFacts.

(** ** Reading traces *)

Lemma res_calls_app t1 t2 : res_calls (t1 ++ t2) = res_calls t1 ++ res_calls t2.
Proof. apply List.filter_app. Qed.

Lemma is_head_res_call e : is_head e = true -> is_res_call e = true.
Proof. unfold is_res_call. now intros ->. Qed.

Lemma res_calls_heads t : forallb is_head t = true -> res_calls t = t.
Proof.
  induction t as [|e t IH]; simpl; [reflexivity|].
  intros H. apply andb_true_iff in H as [He Ht].
  rewrite (is_head_res_call _ He). now rewrite (IH Ht).
Qed.

Lemma head_calls_heads t : forallb is_head t = true -> head_calls t = t.
Proof.
  induction t as [|e t IH]; simpl; [reflexivity|].
  intros H. apply andb_true_iff in H as [He Ht].
  rewrite He. now rewrite (IH Ht).
Qed.

Lemma body_bytes_heads t : forallb is_head t = true -> body_bytes t = [].
Proof.
  induction t as [|e t IH]; simpl; [reflexivity|].
  intros H. apply andb_true_iff in H as [He Ht].
  rewrite (IH Ht). now destruct e.
Qed.

Lemma res_calls_writes ws : res_calls (map res_write ws) = map res_write ws.
Proof. induction ws as [|w ws IH]; simpl; [reflexivity|]. now rewrite IH. Qed.

Lemma head_calls_writes ws : head_calls (map res_write ws) = [].
Proof. induction ws as [|w ws IH]; simpl; [reflexivity|]. exact IH. Qed.

Lemma body_bytes_writes ws : body_bytes (map res_write ws) = concat ws.
Proof. induction ws as [|w ws IH]; simpl; [reflexivity|]. now rewrite IH. Qed.

Lemma head_calls_res_calls t : head_calls (res_calls t) = head_calls t.
Proof.
  induction t as [|e t IH]; simpl; [reflexivity|].
  unfold is_res_call. destruct (is_head e) eqn:He; simpl.
  - rewrite He. now rewrite IH.
  - destruct (is_body e); simpl; [rewrite He|]; exact IH.
Qed.

Lemma body_bytes_res_calls t : body_bytes (res_calls t) = body_bytes t.
Proof.
  induction t as [|e t IH]; simpl; [reflexivity|].
  destruct e as [| | | | | | | | |[d|]]; simpl; rewrite ?IH; reflexivity.
Qed.

Lemma no_head_res_calls t :
  forallb (fun e => negb (is_head e)) (res_calls t)
  = forallb (fun e => negb (is_head e)) t.
Proof.
  induction t as [|e t IH]; simpl; [reflexivity|].
  unfold is_res_call. destruct (is_head e) eqn:He; simpl.
  - now rewrite He.
  - destruct (is_body e); simpl; [rewrite He|]; exact IH.
Qed.

Lemma head_before_body_res_calls t :
  head_before_body (res_calls t) = head_before_body t.
Proof.
  induction t as [|e t IH]; simpl; [reflexivity|].
  unfold is_res_call. destruct (is_body e) eqn:Hb.
  - rewrite orb_true_r. simpl. rewrite Hb. apply no_head_res_calls.
  - rewrite orb_false_r. destruct (is_head e); simpl; [rewrite Hb|]; exact IH.
Qed.

Lemma head_before_body_shape heads ws :
  forallb is_head heads = true ->
  head_before_body (heads ++ map res_write ws) = true.
Proof.
  induction heads as [|e heads IH]; simpl.
  - intros _. destruct ws as [|w ws]; simpl; [reflexivity|].
    induction ws as [|w' ws IHws]; simpl; [reflexivity|exact IHws].
  - intros H. apply andb_true_iff in H as [He Ht].
    destruct e; try discriminate; simpl; exact (IH Ht).
Qed.

Lemma forEach_trace_forallb {A S} (P : effect -> bool) (f : S -> A -> Eff S) :
  (forall s a, forallb P (fst (f s a)) = true) ->
  forall l s, forallb P (fst (forEach l f s)) = true.
Proof.
  intros Hf l. induction l as [|a l IH]; intros s; [reflexivity|].
  simpl. unfold bind. specialize (Hf s a).
  destruct (f s a) as [t [s'|e]]; simpl in *; [|exact Hf].
  rewrite forallb_app, Hf. apply IH.
Qed.

Lemma parse_header_heads (o : Obj.t) (header : string) :
  forallb is_head (fst (parse_header o header)) = true.
Proof.
  unfold parse_header.
  destruct (Text.split ":" header) as [|key valueParts]; [reflexivity|].
  destruct (_ && _); [|reflexivity].
  destruct (String.eqb _ _); reflexivity.
Qed.

(** The header translation only sets the status code and headers. *)
Lemma translate_headers_heads (o : Obj.t) (section : string) :
  forallb is_head (trace (translate_headers o section)) = true.
Proof.
  unfold translate_headers, trace.
  pose proof (forEach_trace_forallb is_head parse_header parse_header_heads
                (Text.split CRLF section) o) as Hparse.
  destruct (forEach (Text.split CRLF section) parse_header o) as [t [o'|e]];
    simpl in *; [|exact Hparse].
  rewrite set_headers_trace. simpl. rewrite forallb_app, Hparse, app_nil_r.
  simpl. induction (Obj.entries o') as [|kv l IH]; [reflexivity|exact IH].
Qed.

(** ** The response parser *)

Lemma stdout_bytes_data chunks : stdout_bytes (map stdout_data chunks) = concat chunks.
Proof. induction chunks as [|c chunks IH]; simpl; [reflexivity|]. now rewrite IH. Qed.

Lemma error_free_data chunks : error_free (map stdout_data chunks) = true.
Proof. induction chunks as [|c chunks IH]; simpl; [reflexivity|exact IH]. Qed.

Section Stream.
Variable Buffer_toString : list byte -> string.
Local Open Scope nat_scope.

Local Abbreviation on_event := (on_event Buffer_toString).
Local Abbreviation on_stdout_data := (on_stdout_data Buffer_toString).

(** The calls of one header translation, for the section that ends at
    index [i] of the buffer [buffer]. *)
Local Abbreviation head_of o buffer i :=
  (trace (translate_headers o (Buffer_toString (take i buffer)))).

Lemma on_stdout_data_parsed st chunk :
  headersParsed st = true ->
  on_stdout_data st chunk = ([res_write chunk], Normal st).
Proof. intros H. unfold on_stdout_data. now rewrite H. Qed.

Lemma on_stdout_data_wait st chunk :
  headersParsed st = false ->
  indexOf CRLFCRLF (responseBuffer st ++ chunk) = None ->
  on_stdout_data st chunk
  = ([], Normal {| responseHeaders := responseHeaders st;
                   headersParsed := false;
                   responseBuffer := responseBuffer st ++ chunk |}).
Proof. intros H Hi. unfold on_stdout_data. now rewrite H, Hi. Qed.

Lemma on_stdout_data_split st chunk i :
  headersParsed st = false ->
  indexOf CRLFCRLF (responseBuffer st ++ chunk) = Some i ->
  exists o' ws,
    on_stdout_data st chunk
    = (head_of (responseHeaders st) (responseBuffer st ++ chunk) i
         ++ map res_write ws,
       Normal {| responseHeaders := o';
                 headersParsed := true;
                 responseBuffer := responseBuffer st ++ chunk |})
    /\ concat ws = drop (i + 4) (responseBuffer st ++ chunk).
Proof.
  intros H Hi. unfold on_stdout_data. rewrite H, Hi. simpl negb. cbv iota.
  destruct (translate_headers_total (responseHeaders st)
              (Buffer_toString (take i (responseBuffer st ++ chunk))))
    as (t & o' & Ht).
  rewrite (bind_Normal _ _ _ _ Ht). unfold trace. rewrite Ht. simpl fst.
  destruct (drop (i + 4) (responseBuffer st ++ chunk)) as [|b body] eqn:Ebody.
  - exists o', []. split; [|reflexivity]. reflexivity.
  - exists o', [b :: body]. split; [|simpl; now rewrite app_nil_r]. reflexivity.
Qed.

(** Once the header block has been translated, every chunk is written
    through and nothing else touches the response head. *)
Lemma run_parsed events st :
  headersParsed st = true ->
  error_free events = true ->
  exists t ws,
    forEach events on_event st = (t, Normal st)
    /\ res_calls t = map res_write ws
    /\ concat ws = stdout_bytes events.
Proof.
  intros Hst. induction events as [|ev events IH]; intros Hfree.
  - now exists [], [].
  - simpl in Hfree. apply andb_true_iff in Hfree as [Hev Hfree].
    destruct (IH Hfree) as (t & ws & Hrun & Hcalls & Hbytes).
    destruct ev as [error|chunk| |data]; [discriminate| | |].
    + exists (res_write chunk :: t), (chunk :: ws). simpl.
      rewrite (bind_Normal _ _ _ _ (on_stdout_data_parsed st chunk Hst)).
      rewrite Hrun. simpl. now rewrite Hcalls, Hbytes.
    + exists (res_end None :: t), ws. simpl. unfold bind. simpl.
      rewrite Hrun. simpl. now split.
    + exists (console_error "Git backend stderr:" (Buffer_toString data) :: t), ws.
      simpl. unfold bind. simpl. rewrite Hrun. simpl. now split.
Qed.

(** The parser, for any run of a spawned backend, in terms of the whole
    output [s]: nothing reaches the response as long as [s] has no
    delimiter; otherwise the head is translated once, from what
    precedes the first delimiter, and what follows it is written. *)
Lemma run_unparsed events st :
  headersParsed st = false ->
  indexOf CRLFCRLF (responseBuffer st) = None ->
  error_free events = true ->
  let s := responseBuffer st ++ stdout_bytes events in
  exists t st',
    forEach events on_event st = (t, Normal st')
    /\ match indexOf CRLFCRLF s with
       | None =>
           res_calls t = [] /\ headersParsed st' = false
       | Some i =>
           headersParsed st' = true
           /\ exists ws,
                res_calls t = head_of (responseHeaders st) s i ++ map res_write ws
                /\ concat ws = drop (i + 4) s
       end.
Proof.
  revert st. induction events as [|ev events IH]; intros st Hst Hbuf Hfree s; subst s.
  - exists [], st. split; [reflexivity|]. simpl. rewrite app_nil_r, Hbuf. now split.
  - simpl in Hfree. apply andb_true_iff in Hfree as [Hev Hfree].
    destruct ev as [error|chunk| |data]; [discriminate| | |].
    + simpl stdout_bytes. rewrite app_assoc.
      destruct (indexOf CRLFCRLF (responseBuffer st ++ chunk)) as [i|] eqn:Hi.
      * destruct (on_stdout_data_split st chunk i Hst Hi) as (o' & ws1 & Hstep & Hws1).
        pose proof (indexOf_bound _ _ _ Hi) as Hb.
        change (length CRLFCRLF) with 4 in Hb.
        destruct (run_parsed events _ (eq_refl : headersParsed
                    {| responseHeaders := o'; headersParsed := true;
                       responseBuffer := responseBuffer st ++ chunk |} = true) Hfree)
          as (t2 & ws2 & Hrun & Hcalls & Hbytes).
        eexists _, _. split.
        { simpl. rewrite (bind_Normal _ _ _ _ Hstep), Hrun. reflexivity. }
        rewrite (indexOf_app _ _ _ _ Hi). split; [reflexivity|].
        exists (ws1 ++ ws2). simpl fst.
        rewrite !res_calls_app, Hcalls, res_calls_writes.
        rewrite (res_calls_heads _ (translate_headers_heads _ _)).
        rewrite (take_app_le (responseBuffer st ++ chunk)) by lia.
        rewrite map_app, <- app_assoc. split; [reflexivity|].
        rewrite concat_app, Hws1, Hbytes.
        rewrite (drop_app_le (responseBuffer st ++ chunk)) by lia. reflexivity.
      * specialize (IH {| responseHeaders := responseHeaders st;
                          headersParsed := false;
                          responseBuffer := responseBuffer st ++ chunk |}
                       eq_refl Hi Hfree).
        destruct IH as (t & st' & Hrun & Hcase).
        exists t, st'. split; [|exact Hcase].
        simpl. rewrite (bind_Normal _ _ _ _ (on_stdout_data_wait st chunk Hst Hi)).
        rewrite Hrun. reflexivity.
    + destruct (IH st Hst Hbuf Hfree) as (t & st' & Hrun & Hcase).
      exists (res_end None :: t), st'. split; [|exact Hcase].
      simpl. unfold bind. simpl. rewrite Hrun. reflexivity.
    + destruct (IH st Hst Hbuf Hfree) as (t & st' & Hrun & Hcase).
      exists (console_error "Git backend stderr:" (Buffer_toString data) :: t), st'.
      split; [|exact Hcase].
      simpl. unfold bind. simpl. rewrite Hrun. reflexivity.
Qed.

End Stream.

Lemma head_calls_app t1 t2 : head_calls (t1 ++ t2) = head_calls t1 ++ head_calls t2.
Proof. apply List.filter_app. Qed.

Lemma body_bytes_app t1 t2 : body_bytes (t1 ++ t2) = body_bytes t1 ++ body_bytes t2.
Proof. apply flat_map_app. Qed.

Lemma forallb_heads_res_calls t :
  forallb is_head t = true -> forallb is_res_call t = true.
Proof.
  induction t as [|e t IH]; simpl; [reflexivity|].
  intros H. apply andb_true_iff in H as [He Ht].
  now rewrite (is_head_res_call _ He), (IH Ht).
Qed.

Lemma forallb_writes_res_calls ws : forallb is_res_call (map res_write ws) = true.
Proof. induction ws as [|w ws IH]; simpl; [reflexivity|exact IH]. Qed.

Section Responses.
Variable Buffer_toString : list byte -> string.
Local Open Scope nat_scope.

Local Abbreviation on_event := (on_event Buffer_toString).
Local Abbreviation on_stdout_data := (on_stdout_data Buffer_toString).

Lemma on_stdout_data_res_calls st chunk :
  forallb is_res_call (fst (on_stdout_data st chunk)) = true.
Proof.
  destruct (headersParsed st) eqn:Hst.
  - now rewrite on_stdout_data_parsed.
  - destruct (indexOf CRLFCRLF (responseBuffer st ++ chunk)) as [i|] eqn:Hi.
    + destruct (on_stdout_data_split Buffer_toString st chunk i Hst Hi)
        as (o' & ws & -> & _).
      simpl. rewrite forallb_app, forallb_writes_res_calls.
      now rewrite (forallb_heads_res_calls _ (translate_headers_heads _ _)).
    + now rewrite on_stdout_data_wait.
Qed.

(** A run made of stdout chunks only calls nothing but the response. *)
Lemma data_run_res_calls chunks st :
  res_calls (fst (forEach (map stdout_data chunks) on_event st))
  = fst (forEach (map stdout_data chunks) on_event st).
Proof.
  apply forallb_filter_id. revert st.
  induction chunks as [|c chunks IH]; intros st; [reflexivity|].
  simpl. unfold bind.
  pose proof (on_stdout_data_res_calls st c) as Hc.
  destruct (on_stdout_data st c) as [t [st'|e]]; simpl in *; [|exact Hc].
  rewrite forallb_app, Hc. apply IH.
Qed.

(** What a spawned backend's run leaves on the response. *)
Lemma run_summary events :
  error_free events = true ->
  let s := stdout_bytes events in
  let t := fst (forEach events on_event fresh_proxy) in
  head_before_body t = true
  /\ head_calls t
     = match indexOf CRLFCRLF s with
       | Some i => trace (translate_headers Obj.empty (Buffer_toString (take i s)))
       | None => []
       end
  /\ body_bytes t
     = match indexOf CRLFCRLF s with
       | Some i => drop (i + 4) s
       | None => []
       end.
Proof.
  intros Hfree s t. subst s t.
  destruct (run_unparsed Buffer_toString events fresh_proxy eq_refl eq_refl Hfree)
    as (t & st' & Hrun & Hcase).
  rewrite Hrun. simpl fst. simpl in Hcase.
  rewrite <- head_before_body_res_calls, <- head_calls_res_calls,
    <- body_bytes_res_calls.
  destruct (indexOf CRLFCRLF (stdout_bytes events)) as [i|].
  - destruct Hcase as (_ & ws & -> & Hws).
    pose proof (translate_headers_heads Obj.empty
                  (Buffer_toString (take i (stdout_bytes events)))) as Hheads.
    rewrite head_before_body_shape by exact Hheads.
    rewrite head_calls_app, body_bytes_app.
    rewrite head_calls_writes, body_bytes_writes, app_nil_r.
    rewrite (head_calls_heads _ Hheads), (body_bytes_heads _ Hheads).
    now rewrite Hws.
  - destruct Hcase as [-> _]. now split.
Qed.

(** C9.  However the backend's output is cut into chunks, the parser
    makes the same status and header calls, in the same order, and
    writes the same bytes as when it receives the whole output as one
    chunk. *)
Theorem C9_chunking_is_irrelevant (chunks : list (list byte)) :
  let chunked := trace (forEach (map stdout_data chunks) on_event fresh_proxy) in
  let whole := trace (on_stdout_data fresh_proxy (concat chunks)) in
  head_calls chunked = head_calls whole
  /\ body_bytes chunked = body_bytes whole.
Proof.
  intros chunked whole. subst chunked whole. unfold trace.
  pose proof (run_summary (map stdout_data chunks) (error_free_data chunks))
    as (_ & Hhead & Hbody).
  pose proof (run_summary [stdout_data (concat chunks)] eq_refl)
    as (_ & Hhead1 & Hbody1).
  simpl in Hhead, Hbody, Hhead1, Hbody1.
  rewrite stdout_bytes_data in Hhead, Hbody. rewrite app_nil_r in Hhead1, Hbody1.
  rewrite Hhead, Hbody, <- Hhead1, <- Hbody1.
  unfold bind.
  destruct (on_stdout_data fresh_proxy (concat chunks)) as [t [st|e]]; simpl;
    rewrite ?app_nil_r; now split.
Qed.

End Responses.

Section Requests.
Variable Buffer_toString : list byte -> string.
Local Open Scope nat_scope.

Local Abbreviation on_event := (on_event Buffer_toString).

Lemma serve_proxied p req t0 st0 events t st' :
  requestHandler p req = (t0, Normal (Some st0)) ->
  forEach events on_event st0 = (t, Normal st') ->
  serve Buffer_toString p req events = (t0 ++ t, Normal (Some st')).
Proof.
  intros Hreq Hrun. unfold serve.
  rewrite (bind_Normal _ _ _ _ Hreq). simpl.
  rewrite (bind_Normal _ _ _ _ Hrun). simpl. now rewrite app_nil_r.
Qed.

Lemma run_quiet events st :
  forallb is_quiet events = true ->
  exists t, forEach events on_event st = (t, Normal st) /\ res_calls t = [].
Proof.
  induction events as [|ev events IH]; intros Hq; [now exists []|].
  simpl in Hq. apply andb_true_iff in Hq as [Hev Hq].
  destruct (IH Hq) as (t & Hrun & Hcalls).
  destruct ev as [error|chunk| |data]; try discriminate.
  - exists (res_end None :: t). simpl. unfold bind. simpl. rewrite Hrun. now split.
  - exists (console_error "Git backend stderr:" (Buffer_toString data) :: t).
    simpl. unfold bind. simpl. rewrite Hrun. now split.
Qed.

(** C4 (amended).  For every request handed to the git proxy and
    every run of its backend: no status or header call follows a call
    that writes body bytes, and the status and header calls of the
    whole request are those of one header translation, of the text
    before the first [CRLFCRLF] of the backend's output; there are none
    when the output has no [CRLFCRLF], and when the backend could not be
    spawned the only one is the status 500 of the error listener.  So
    the response head is set at most once, and always before the
    body. *)
Theorem C4_head_at_most_once_before_body
    (p : process) (req : IncomingMessage) (t0 : list effect) (st0 : proxy)
    (events : list backend_event) :
  requestHandler p req = (t0, Normal (Some st0)) ->
  backend_run events = true ->
  let t := trace (serve Buffer_toString p req events) in
  let s := stdout_bytes events in
  head_before_body t = true
  /\ head_calls t
     = if error_free events
       then match indexOf CRLFCRLF s with
            | Some i => trace (translate_headers Obj.empty (Buffer_toString (take i s)))
            | None => []
            end
       else [res_statusCode (Int 500)].
Proof.
  intros Hreq Hrun t s. subst t s.
  destruct (requestHandler_proxied_inv _ _ _ _ Hreq) as (u & _ & Ht0 & Hst0).
  destruct (error_free events) eqn:Hfree.
  - destruct (events_total Buffer_toString events st0) as (t & st' & Ht).
    rewrite (serve_proxied _ _ _ _ _ _ _ Hreq Ht). unfold trace. simpl fst.
    pose proof (run_summary Buffer_toString events Hfree) as (Hord & Hhead & _).
    subst st0. rewrite Ht in Hord, Hhead. simpl in Hord, Hhead.
    rewrite Ht0. simpl. now split.
  - unfold backend_run in Hrun. rewrite Hfree in Hrun. simpl in Hrun.
    destruct events as [|[error|chunk| |data] rest]; try discriminate.
    simpl in Hrun.
    destruct (run_quiet rest st0 Hrun) as (t & Ht & Hcalls).
    assert (forEach (child_error error :: rest) on_event st0
            = ([console_error "Git backend error:" error;
                res_statusCode (Int 500);
                res_end (Some "Internal Server Error")] ++ t, Normal st0)) as Hall.
    { simpl. unfold bind. simpl. now rewrite Ht. }
    rewrite (serve_proxied _ _ _ _ _ _ _ Hreq Hall). unfold trace. simpl fst.
    rewrite <- head_before_body_res_calls, <- head_calls_res_calls.
    rewrite Ht0. simpl. rewrite Hcalls. now split.
Qed.

End Requests.

Example C9_delimiter_across_chunks :
  trace (forEach (map stdout_data sample_chunks) (on_event sample_toString) fresh_proxy)
  = [res_statusCode (Int 404); res_setHeader "Content-Type" "text/plain";
     res_write sample_body].
Proof. reflexivity. Qed.

(** C4, as the spec states it, fails in both directions.  A backend
    that exits without a header block leaves the status code and the
    headers unset, so they are set zero times; a header block with two
    [Status] lines sets the status code twice. *)
Lemma C4_head_not_set_exactly_once :
  head_calls
    (trace (serve sample_toString sample_process
              (sample_request "GET" "/git/repos1.git/info/refs")
              [stdout_data (bytes "fatal: no header block"); stdout_end]))
  = []
  /\ head_calls
       (trace (serve sample_toString sample_process
                 (sample_request "GET" "/git/repos1.git/info/refs")
                 [stdout_data (bytes ("Status: 404" +:+ CRLF +:+ "Status: 200"
                                      +:+ CRLF +:+ CRLF));
                  stdout_end]))
     = [res_statusCode (Int 404); res_statusCode (Int 200)].
Proof. split; reflexivity. Qed.

Lemma C4_head_at_most_once_before_body_witness :
  head_before_body
    (trace (serve sample_toString sample_process
              (sample_request "GET" "/git/repos1.git/info/refs")
              (map stdout_data sample_chunks ++ [stdout_end]))) = true
  /\ head_calls
       (trace (serve sample_toString sample_process
                 (sample_request "GET" "/git/repos1.git/info/refs")
                 (map stdout_data sample_chunks ++ [stdout_end])))
     = [res_statusCode (Int 404); res_setHeader "Content-Type" "text/plain"].
Proof.
  refine (C4_head_at_most_once_before_body sample_toString sample_process
            (sample_request "GET" "/git/repos1.git/info/refs") _ fresh_proxy
            (map stdout_data sample_chunks ++ [stdout_end]) _ _).
  - reflexivity.
  - reflexivity.
Defined.

(** ** Provisioning *)

Section ProvisioningFacts.
Variable sh : string -> gset string -> option (gset string).

Lemma provision_repository_found p fs repoName :
  repoPath_of p repoName ∈ fs ->
  provision_repository sh p fs repoName = (found_calls p repoName, Normal fs).
Proof.
  intros Hin. unfold provision_repository, found_calls.
  unfold bind. simpl. now rewrite bool_decide_eq_true_2.
Qed.

Lemma provision_found p names fs :
  (forall repoName, In repoName names -> repoPath_of p repoName ∈ fs) ->
  provision sh p names fs = (flat_map (found_calls p) names, Normal fs).
Proof.
  intros Hall. unfold provision.
  induction names as [|repoName names IH]; [reflexivity|].
  cbn [forEach flat_map].
  rewrite (bind_Normal _ _ _ _
             (provision_repository_found p fs repoName (Hall _ (or_introl eq_refl)))).
  rewrite IH by (intros n Hn; apply Hall; now right). reflexivity.
Qed.

(** C6.  Provisioning over directories that already exist, which is
    what a second run finds, only checks for each directory and logs
    that it is there: no command is run, so nothing is created or
    initialised, and the set of existing paths is returned as it
    was. *)
Theorem C6_provisioning_is_idempotent
    (p : process) (names : list string) (fs : gset string) :
  (forall repoName, In repoName names -> repoPath_of p repoName ∈ fs) ->
  provision sh p names fs = (flat_map (found_calls p) names, Normal fs)
  /\ (forall command, ~ In (child_execSync command)
                          (trace (provision sh p names fs))).
Proof.
  intros Hall. pose proof (provision_found p names fs Hall) as Heq.
  split; [exact Heq|].
  intros command. rewrite Heq. unfold trace. simpl fst.
  rewrite in_flat_map. intros (repoName & _ & [H|[H|[]]]); discriminate.
Qed.

(** The second of two runs.  [mkdir -p] leaves the directory behind
    whenever the command succeeds, and the command removes nothing. *)
Hypothesis sh_creates :
  forall path fs fs', sh (init_command path) fs = Some fs' -> path ∈ fs' /\ fs ⊆ fs'.

Lemma provision_repository_creates p fs repoName t fs' :
  provision_repository sh p fs repoName = (t, Normal fs') ->
  repoPath_of p repoName ∈ fs' /\ fs ⊆ fs'.
Proof.
  unfold provision_repository, bind. simpl.
  destruct (bool_decide (repoPath_of p repoName ∈ fs)) eqn:E; simpl.
  - intros [= _ <-]. apply bool_decide_eq_true_1 in E. now split.
  - destruct (sh (init_command (repoPath_of p repoName)) fs) as [fs1|] eqn:Hsh;
      simpl; [|discriminate].
    intros [= _ <-]. now apply sh_creates.
Qed.

Lemma provision_creates p names fs t fs' :
  provision sh p names fs = (t, Normal fs') ->
  fs ⊆ fs' /\ forall repoName, In repoName names -> repoPath_of p repoName ∈ fs'.
Proof.
  unfold provision. revert fs t. induction names as [|name names IH]; intros fs t.
  - simpl. intros [= _ <-]. split; [reflexivity|]. intros ? [].
  - cbn [forEach]. unfold bind at 1.
    destruct (provision_repository sh p fs name) as [t1 [fs1|e]] eqn:E1;
      [|discriminate].
    destruct (forEach names (provision_repository sh p) fs1) as [t2 [fs2|e]] eqn:E2;
      simpl; [|discriminate].
    intros [= _ <-].
    destruct (provision_repository_creates _ _ _ _ _ E1) as [Hin1 Hsub1].
    destruct (IH _ _ E2) as [Hsub2 Hin2].
    split; [by etrans|].
    intros repoName [<-|Hin]; [by apply Hsub2|auto].
Qed.

(** A run that completed is followed by a run that creates nothing. *)
Lemma provision_twice p names fs t fs' :
  provision sh p names fs = (t, Normal fs') ->
  provision sh p names fs' = (flat_map (found_calls p) names, Normal fs').
Proof.
  intros Hfirst. apply provision_found.
  now apply (provision_creates _ _ _ _ _ Hfirst).
Qed.

End ProvisioningFacts.

Lemma C6_provisioning_is_idempotent_witness :
  provision (sample_sh "/tmp/scratch") sample_process bootstrap_repositories
    {[ "/srv/git-server-volume/repos1.git";
       "/srv/git-server-volume/repos2.git";
       "/srv/git-server-volume/repos3.git" ]}
  = (flat_map (found_calls sample_process) bootstrap_repositories,
     Normal {[ "/srv/git-server-volume/repos1.git";
               "/srv/git-server-volume/repos2.git";
               "/srv/git-server-volume/repos3.git" ]}).
Proof.
  refine (proj1 (C6_provisioning_is_idempotent _ sample_process
                   bootstrap_repositories _ _)).
  intros repoName [<-|[<-|[<-|[]]]]; vm_compute; set_solver.
Defined.

(** * Further properties *)

(** ** Dictionaries built by [define] *)

Module ObjLaws.
Import Obj.

Lemma lookup_define_eq k v o : lookup k (define k v o) = Some v.
Proof.
  induction o as [|[k' v'] o IH]; simpl.
  - now rewrite String.eqb_refl.
  - destruct (String.eqb k k') eqn:E; simpl; rewrite E; [reflexivity|exact IH].
Qed.

Lemma lookup_define_ne k k' v o : k <> k' -> lookup k' (define k v o) = lookup k' o.
Proof.
  intros Hne. induction o as [|[j w] o IH]; simpl.
  - apply not_eq_sym, String.eqb_neq in Hne. now rewrite Hne.
  - destruct (String.eqb k j) eqn:E; simpl.
    + apply String.eqb_eq in E. subst j.
      apply not_eq_sym, String.eqb_neq in Hne. now rewrite Hne.
    + now rewrite IH.
Qed.

Lemma keys_define k v o k' : In k' (obj_keys (define k v o)) <-> k' = k \/ In k' (obj_keys o).
Proof.
  unfold obj_keys. induction o as [|[j w] o IH]; simpl.
  - intuition.
  - destruct (String.eqb k j) eqn:E; simpl.
    + apply String.eqb_eq in E. subst j. intuition.
    + rewrite IH. intuition.
Qed.

Lemma define_fresh k v o : ~ In k (obj_keys o) -> define k v o = o ++ [(k, v)].
Proof.
  unfold obj_keys. induction o as [|[j w] o IH]; simpl; intros Hk; [reflexivity|].
  destruct (String.eqb k j) eqn:E.
  - apply String.eqb_eq in E. subst j. tauto.
  - rewrite IH by tauto. reflexivity.
Qed.

Lemma NoDup_define k v o : List.NoDup (obj_keys o) -> List.NoDup (obj_keys (define k v o)).
Proof.
  unfold obj_keys. induction o as [|[j w] o IH]; simpl; intros Hnd.
  - constructor; [tauto|constructor].
  - apply List.NoDup_cons_iff in Hnd as [Hj Hnd].
    destruct (String.eqb k j) eqn:E; simpl.
    + now constructor.
    + constructor; [|now apply IH].
      intros Hin. apply (keys_define k v o j) in Hin as [->|Hin]; [|tauto].
      now rewrite String.eqb_refl in E.
Qed.

Lemma lookup_In k v o : lookup k o = Some v -> In (k, v) o.
Proof.
  induction o as [|[j w] o IH]; simpl; [discriminate|].
  destruct (String.eqb k j) eqn:E.
  - apply String.eqb_eq in E. subst j. intros [= ->]. now left.
  - intros H. right. now apply IH.
Qed.

Lemma In_lookup k v o : List.NoDup (obj_keys o) -> In (k, v) o -> lookup k o = Some v.
Proof.
  unfold obj_keys. induction o as [|[j w] o IH]; simpl; intros Hnd Hin; [tauto|].
  apply List.NoDup_cons_iff in Hnd as [Hj Hnd].
  destruct Hin as [[= -> ->]|Hin].
  - now rewrite String.eqb_refl.
  - destruct (String.eqb k j) eqn:E; [|now apply IH].
    apply String.eqb_eq in E. subst j. destruct Hj.
    apply in_map_iff. now exists (k, v).
Qed.

Lemma Permutation_insert_sorted i kv l :
  Permutation (map snd (insert_sorted i kv l)) (kv :: map snd l).
Proof.
  induction l as [|[j kv'] l IH]; simpl; [reflexivity|].
  destruct (i <? j)%N; simpl; [reflexivity|].
  rewrite IH. apply perm_swap.
Qed.

(** Enumeration is a rearrangement of the properties. *)
Lemma Permutation_entries o : Permutation (entries o) o.
Proof.
  unfold entries. induction o as [|kv o IH]; simpl; [reflexivity|].
  destruct (array_index (fst kv)).
  - rewrite Permutation_insert_sorted. simpl. now rewrite IH.
  - rewrite <- Permutation_middle. now rewrite IH.
Qed.

Lemma NoDup_entries o : List.NoDup (obj_keys o) -> List.NoDup (obj_keys (entries o)).
Proof.
  unfold obj_keys. intros H.
  eapply Permutation_NoDup; [|exact H].
  apply Permutation_map, Permutation_sym, Permutation_entries.
Qed.

Lemma entries_named o :
  (forall k, In k (obj_keys o) -> array_index k = None) -> entries o = o.
Proof.
  unfold entries, obj_keys. induction o as [|kv o IH]; simpl; intros H; [reflexivity|].
  rewrite (H (fst kv)) by now left.
  assert (indexed o = []) as Hidx.
  { clear IH. induction o as [|kv' o IHo]; simpl; [reflexivity|].
    rewrite (H (fst kv')) by (right; now left).
    apply IHo. intros k [Hk|Hk]; apply H; [now left|right; now right]. }
  rewrite Hidx in *. simpl in *. f_equal. apply IH.
  intros k Hk. apply H. now right.
Qed.

Lemma fold_define_keys pairs o k :
  In k (obj_keys (fold_left (fun o kv => define (fst kv) (snd kv) o) pairs o))
  <-> In k (obj_keys o) \/ In k (map fst pairs).
Proof.
  revert o. induction pairs as [|[j w] pairs IH]; intros o; simpl.
  - intuition.
  - rewrite IH, keys_define. simpl. intuition.
Qed.

Lemma fold_define_NoDup pairs o :
  List.NoDup (obj_keys o) ->
  List.NoDup (obj_keys (fold_left (fun o kv => define (fst kv) (snd kv) o) pairs o)).
Proof.
  revert o. induction pairs as [|[j w] pairs IH]; intros o H; simpl; [exact H|].
  apply IH, NoDup_define, H.
Qed.

Lemma fold_define_lookup_other pairs o k :
  ~ In k (map fst pairs) ->
  lookup k (fold_left (fun o kv => define (fst kv) (snd kv) o) pairs o) = lookup k o.
Proof.
  revert o. induction pairs as [|[j w] pairs IH]; intros o H; simpl in *; [reflexivity|].
  rewrite IH by tauto. apply lookup_define_ne. intros ->. tauto.
Qed.

Lemma fold_define_distinct pairs o :
  List.NoDup (map fst pairs) ->
  (forall k, In k (map fst pairs) -> ~ In k (obj_keys o)) ->
  fold_left (fun o kv => define (fst kv) (snd kv) o) pairs o = o ++ pairs.
Proof.
  revert o. induction pairs as [|[j w] pairs IH]; intros o Hnd Hfresh; simpl.
  - now rewrite app_nil_r.
  - simpl in Hnd. apply List.NoDup_cons_iff in Hnd as [Hj Hnd].
    rewrite define_fresh by (apply Hfresh; now left).
    rewrite IH; [now rewrite <- app_assoc|exact Hnd|].
    intros k Hk Hin. unfold obj_keys in Hin. rewrite map_app, in_app_iff in Hin.
    destruct Hin as [Hin|[<-|[]]]; [|tauto].
    apply (Hfresh k); [now right|exact Hin].
Qed.

End ObjLaws.

(** ** The router and the backend's environment *)

Lemma cgi_env_path_info (p : process) (req : IncomingMessage) (u : URL) :
  cgi_env p req u !! "PATH_INFO" = Some (Text.substring_from 4 (pathname u)).
Proof.
  unfold cgi_env. apply lookup_union_Some_l. simpl.
  repeat (rewrite lookup_insert_ne by discriminate).
  apply lookup_insert_eq.
Qed.

Lemma slash_then_dots rest :
  (forall a b, rest <> a +:+ ".." +:+ b) ->
  forall a b, "/" +:+ rest <> a +:+ ".." +:+ b.
Proof.
  intros Hrest a b H. destruct a as [|c a].
  - discriminate H.
  - rewrite TextFacts.app_String in H. injection H as _ H.
    now apply (Hrest a b).
Qed.

(** X1.  [requestHandler] starts a process only as [git http-backend],
    with the CGI environment of the request, and only for a pathname
    that is [/git/] followed by text holding neither [..] nor [//]. *)
Theorem X1_spawn_only_after_path_check
    (p : process) (req : IncomingMessage)
    (command : string) (args : list string) (env : gmap string string) :
  In (child_spawn command args env) (trace (requestHandler p req)) ->
  exists u rest,
    url req = Some u
    /\ pathname u = "/git/" +:+ rest
    /\ (forall a b, rest <> a +:+ ".." +:+ b)
    /\ (forall a b, rest <> a +:+ "//" +:+ b)
    /\ command = "git" /\ args = ["http-backend"] /\ env = cgi_env p req u.
Proof.
  unfold requestHandler, handleGitRequest, trace.
  destruct (url req) as [u|] eqn:Hu; [|intros []].
  destruct (Text.startsWith "/git/" (pathname u)) eqn:Hstart.
  - apply TextFacts.startsWith_inv in Hstart as [rest Hpath].
    rewrite Hpath, substring_from_git.
    destruct (Text.includes ".." rest) eqn:Hdots;
      [intros [H|[H|[]]]; discriminate|].
    destruct (Text.includes "//" rest) eqn:Hslashes;
      [intros [H|[H|[]]]; discriminate|].
    simpl. intros [H|[H|[]]]; [|discriminate].
    injection H as <- <- <-. exists u, rest.
    repeat split; try reflexivity; try assumption; now apply not_includes_check.
  - intros [H|[H|[H|[]]]]; discriminate.
Qed.

Lemma X1_spawn_only_after_path_check_witness :
  exists u rest,
    url (sample_request "GET" "/git/repos1.git/info/refs") = Some u
    /\ pathname u = "/git/" +:+ rest
    /\ (forall a b, rest <> a +:+ ".." +:+ b)
    /\ (forall a b, rest <> a +:+ "//" +:+ b)
    /\ "git" = "git" /\ ["http-backend"] = ["http-backend"]
    /\ cgi_env sample_process (sample_request "GET" "/git/repos1.git/info/refs")
         {| pathname := "/git/repos1.git/info/refs";
            searchParams := [("service", "git-upload-pack")] |}
       = cgi_env sample_process (sample_request "GET" "/git/repos1.git/info/refs") u.
Proof.
  refine (X1_spawn_only_after_path_check sample_process
            (sample_request "GET" "/git/repos1.git/info/refs") _ _ _ _).
  left. reflexivity.
Defined.

(** X2.  For every request handed to the proxy, [PATH_INFO] is the
    pathname without its [/git] prefix: a slash followed by the checked
    text.  It never contains [..]. *)
Theorem X2_path_info_has_no_dotdot
    (p : process) (req : IncomingMessage) (t : list effect) (st : proxy) :
  requestHandler p req = (t, Normal (Some st)) ->
  exists u rest,
    url req = Some u
    /\ pathname u = "/git/" +:+ rest
    /\ cgi_env p req u !! "PATH_INFO" = Some ("/" +:+ rest)
    /\ (forall a b, "/" +:+ rest <> a +:+ ".." +:+ b).
Proof.
  intros Hreq.
  destruct (requestHandler_proxied_inv _ _ _ _ Hreq) as (u & Hu & Ht & _).
  assert (In (child_spawn "git" ["http-backend"] (cgi_env p req u))
             (trace (requestHandler p req))) as Hin
    by (rewrite Hreq, Ht; now left).
  revert Hin. unfold requestHandler, handleGitRequest, trace. rewrite Hu.
  destruct (Text.startsWith "/git/" (pathname u)) eqn:Hstart;
    [|intros [H|[H|[H|[]]]]; discriminate].
  apply TextFacts.startsWith_inv in Hstart as [rest Hpath].
  rewrite Hpath, substring_from_git.
  destruct (Text.includes ".." rest) eqn:Hdots;
    [intros [H|[H|[]]]; discriminate|].
  intros _. exists u, rest.
  split; [reflexivity|]. split; [exact Hpath|]. split.
  - rewrite cgi_env_path_info, Hpath. reflexivity.
  - apply slash_then_dots. now apply not_includes_check.
Qed.

Lemma X2_path_info_has_no_dotdot_witness :
  exists u rest,
    url (sample_request "GET" "/git/repos1.git/info/refs") = Some u
    /\ pathname u = "/git/" +:+ rest
    /\ cgi_env sample_process (sample_request "GET" "/git/repos1.git/info/refs") u
         !! "PATH_INFO" = Some ("/" +:+ rest)
    /\ (forall a b, "/" +:+ rest <> a +:+ ".." +:+ b).
Proof.
  refine (X2_path_info_has_no_dotdot sample_process
            (sample_request "GET" "/git/repos1.git/info/refs") _ fresh_proxy _).
  reflexivity.
Defined.

(** X3.  The [//] check looks at the text after [/git/] only.  A
    pathname that begins with [/git//] therefore passes when a slash
    followed by the rest holds neither [..] nor [//]; the request is
    handed to the backend and [PATH_INFO] begins with an empty
    segment. *)
Theorem X3_double_slash_after_prefix_passes
    (p : process) (req : IncomingMessage) (u : URL) (rest : string) :
  url req = Some u ->
  pathname u = "/git//" +:+ rest ->
  (forall a b, "/" +:+ rest <> a +:+ ".." +:+ b) ->
  (forall a b, "/" +:+ rest <> a +:+ "//" +:+ b) ->
  requestHandler p req
  = ([child_spawn "git" ["http-backend"] (cgi_env p req u); req_pipe_stdin],
     Normal (Some fresh_proxy))
  /\ cgi_env p req u !! "PATH_INFO" = Some ("//" +:+ rest).
Proof.
  intros Hu Hpath Hdots Hslashes. split.
  - now apply requestHandler_dispatch with (rest := "/" +:+ rest).
  - rewrite cgi_env_path_info, Hpath. reflexivity.
Qed.

Lemma X3_double_slash_after_prefix_passes_witness :
  cgi_env sample_process (sample_request "GET" "/git//repos1.git/info/refs")
    {| pathname := "/git//repos1.git/info/refs";
       searchParams := [("service", "git-upload-pack")] |} !! "PATH_INFO"
  = Some "//repos1.git/info/refs".
Proof.
  refine (proj2 (X3_double_slash_after_prefix_passes sample_process
                   (sample_request "GET" "/git//repos1.git/info/refs") _
                   "repos1.git/info/refs" _ _ _ _)).
  - reflexivity.
  - reflexivity.
  - apply not_includes_check. reflexivity.
  - apply not_includes_check. reflexivity.
Defined.

(** X4.  The backend inherits [process.env], except for the thirteen
    CGI variables: a variable with another name reaches the backend as
    the process has it (or not at all), while each CGI variable is
    always set and its value does not depend on [process.env]. *)
Theorem X4_environment_inherited_and_overridden
    (p : process) (req : IncomingMessage) (u : URL) (name : string) :
  (~ In name cgi_names -> cgi_env p req u !! name = process_env p !! name)
  /\ (In name cgi_names ->
      is_Some (cgi_env p req u !! name)
      /\ forall env',
           cgi_env {| process_env := env'; GIT_PROJECT_ROOT := GIT_PROJECT_ROOT p |}
             req u !! name
           = cgi_env p req u !! name).
Proof.
  unfold cgi_env. simpl GIT_PROJECT_ROOT. simpl process_env.
  match goal with
  | |- context [list_to_map ?l ∪ process_env p] => set (overrides := l)
  end.
  assert (overrides.*1 = cgi_names) as Hnames by reflexivity.
  split.
  - intros Hout. apply lookup_union_r, not_elem_of_list_to_map_1.
    rewrite Hnames. now rewrite list_elem_of_In.
  - intros Hin.
    assert (is_Some ((list_to_map overrides : gmap string string) !! name)) as Hsome.
    { destruct (list_to_map overrides !! name) eqn:E; [now eexists|].
      apply not_elem_of_list_to_map_2 in E. rewrite Hnames, list_elem_of_In in E.
      contradiction. }
    split.
    + rewrite lookup_union_l' by exact Hsome. exact Hsome.
    + intros env'. now rewrite !lookup_union_l' by exact Hsome.
Qed.

Lemma cgi_env_server_name (p : process) (req : IncomingMessage) (u : URL) :
  cgi_env p req u !! "SERVER_NAME"
  = Some (or_else (h ← headers req !! "host"; Text.split ":" h !! 0%nat) "localhost").
Proof.
  unfold cgi_env. apply lookup_union_Some_l. simpl.
  repeat (rewrite lookup_insert_ne by discriminate).
  apply lookup_insert_eq.
Qed.

Lemma cgi_env_server_port (p : process) (req : IncomingMessage) (u : URL) :
  cgi_env p req u !! "SERVER_PORT"
  = Some (or_else (h ← headers req !! "host"; Text.split ":" h !! 1%nat) "3334").
Proof.
  unfold cgi_env. apply lookup_union_Some_l. simpl.
  repeat (rewrite lookup_insert_ne by discriminate).
  apply lookup_insert_eq.
Qed.

(** X5.  [SERVER_NAME] is the text of the [Host] header before its
    first colon, and [SERVER_PORT] the text between its first and second
    colon; a missing header and an empty piece give [localhost] and
    [3334].  A host that is an IPv6 literal is cut at its first colon
    like any other. *)
Theorem X5_server_name_and_port
    (p : process) (req : IncomingMessage) (u : URL) :
  (headers req !! "host" = None ->
   cgi_env p req u !! "SERVER_NAME" = Some "localhost"
   /\ cgi_env p req u !! "SERVER_PORT" = Some "3334")
  /\ (forall name,
        headers req !! "host" = Some name -> Text.free_of ":" name ->
        cgi_env p req u !! "SERVER_NAME" = Some (or_else (Some name) "localhost")
        /\ cgi_env p req u !! "SERVER_PORT" = Some "3334")
  /\ (forall name port rest,
        headers req !! "host" = Some (name +:+ ":" +:+ rest) ->
        Text.free_of ":" name -> Text.free_of ":" port ->
        rest = port \/ (exists more, rest = port +:+ ":" +:+ more) ->
        cgi_env p req u !! "SERVER_NAME" = Some (or_else (Some name) "localhost")
        /\ cgi_env p req u !! "SERVER_PORT" = Some (or_else (Some port) "3334")).
Proof.
  rewrite cgi_env_server_name, cgi_env_server_port. split; [|split].
  - intros ->. now split.
  - intros name -> Hname. simpl. rewrite TextFacts.split_free by exact Hname.
    now split.
  - intros name port rest -> Hname Hport Hrest. simpl.
    change (name +:+ ":" +:+ rest) with (name +:+ String ":" rest).
    rewrite TextFacts.split_hit by exact Hname. simpl.
    split; [reflexivity|].
    destruct Hrest as [->|[more ->]].
    + now rewrite TextFacts.split_free.
    + change (port +:+ ":" +:+ more) with (port +:+ String ":" more).
      now rewrite TextFacts.split_hit.
Qed.

Example ipv6_host_is_cut :
  let req := {| method := "GET";
                url := None;
                headers := {["host" := "[::1]:3334"]};
                socket_remoteAddress := None |} in
  let u := {| pathname := "/git/x"; searchParams := [] |} in
  cgi_env sample_process req u !! "SERVER_NAME" = Some "["
  /\ cgi_env sample_process req u !! "SERVER_PORT" = Some "3334".
Proof. split; reflexivity. Qed.

Lemma cgi_env_query_string (p : process) (req : IncomingMessage) (u : URL) :
  cgi_env p req u !! "QUERY_STRING"
  = Some (URLSearchParams_toString (Obj.fromEntries (searchParams u))).
Proof.
  unfold cgi_env. apply lookup_union_Some_l. simpl.
  repeat (rewrite lookup_insert_ne by discriminate).
  apply lookup_insert_eq.
Qed.

(** X6.  When the query parameters have distinct names, none of them a
    canonical array index, [QUERY_STRING] is their serialisation in the
    order of the URL: the detour through an object changes nothing. *)
Theorem X6_query_string_in_order
    (p : process) (req : IncomingMessage) (u : URL) :
  List.NoDup (map fst (searchParams u)) ->
  (forall name, In name (map fst (searchParams u)) -> Obj.array_index name = None) ->
  cgi_env p req u !! "QUERY_STRING"
  = Some (Text.join "&" (map form_pair (searchParams u))).
Proof.
  intros Hnd Hnamed. rewrite cgi_env_query_string.
  unfold URLSearchParams_toString, Obj.fromEntries.
  rewrite ObjLaws.fold_define_distinct by (auto; intros k _ []).
  simpl app. rewrite ObjLaws.entries_named by exact Hnamed. reflexivity.
Qed.

Lemma X6_query_string_in_order_witness :
  cgi_env sample_process (sample_request "GET" "/git/repos1.git/info/refs")
    {| pathname := "/git/repos1.git/info/refs";
       searchParams := [("service", "git upload-pack"); ("a&b", "1")] |}
    !! "QUERY_STRING"
  = Some "service=git+upload-pack&a%26b=1".
Proof.
  refine (X6_query_string_in_order sample_process _
            {| pathname := "/git/repos1.git/info/refs";
               searchParams := [("service", "git upload-pack"); ("a&b", "1")] |} _ _).
  - repeat constructor; simpl; intuition discriminate.
  - intros name [<-|[<-|[]]]; reflexivity.
Defined.

(** X7.  The object that [QUERY_STRING] is serialised from holds each
    parameter name once, with the value of its last occurrence in the
    URL: earlier values of a repeated parameter do not reach the
    backend. *)
Theorem X7_repeated_parameter_keeps_last_value
    (pairs earlier later : list (string * string)) (name value : string) :
  pairs = earlier ++ (name, value) :: later ->
  ~ In name (map fst later) ->
  let query := Obj.entries (Obj.fromEntries pairs) in
  List.NoDup (map fst query)
  /\ In (name, value) query
  /\ (forall value', In (name, value') query -> value' = value).
Proof.
  intros -> Hlast query. subst query. unfold Obj.fromEntries.
  set (o := fold_left _ _ Obj.empty).
  assert (List.NoDup (obj_keys o)) as Hnd
    by (apply ObjLaws.fold_define_NoDup; constructor).
  assert (Obj.lookup name o = Some value) as Hlookup.
  { subst o. rewrite fold_left_app. simpl.
    rewrite ObjLaws.fold_define_lookup_other by exact Hlast.
    apply ObjLaws.lookup_define_eq. }
  split; [exact (ObjLaws.NoDup_entries o Hnd)|]. split.
  - apply ObjFacts.In_entries, ObjLaws.lookup_In, Hlookup.
  - intros value' Hin. apply (proj1 (ObjFacts.In_entries _ _)) in Hin.
    apply (ObjLaws.In_lookup _ _ _ Hnd) in Hin. congruence.
Qed.

Lemma X7_repeated_parameter_keeps_last_value_witness :
  In ("service", "git-receive-pack")
     (Obj.entries (Obj.fromEntries
        [("service", "git-upload-pack"); ("x", "1"); ("service", "git-receive-pack")])).
Proof.
  refine (proj1 (proj2 (X7_repeated_parameter_keeps_last_value _
            [("service", "git-upload-pack"); ("x", "1")] [] "service"
            "git-receive-pack" _ _))).
  - reflexivity.
  - intros [].
Defined.

(** ** The header block as a whole *)

Lemma forEach_cons_inv {A S} (f : S -> A -> Eff S) a l s t s' :
  forEach (a :: l) f s = (t, Normal s') ->
  exists t1 s1 t2,
    f s a = (t1, Normal s1) /\ forEach l f s1 = (t2, Normal s') /\ t = t1 ++ t2.
Proof.
  simpl. unfold bind. destruct (f s a) as [t1 [s1|e]]; [|discriminate].
  destruct (forEach l f s1) as [t2 [s2|e]] eqn:E2; simpl; [|discriminate].
  intros [= <- <-]. now exists t1, s1, t2.
Qed.

Lemma free_of_empty c : Text.free_of c "".
Proof. intros [|x a] b H; discriminate H. Qed.

Lemma free_of_String c x s : x <> c -> Text.free_of c s -> Text.free_of c (String x s).
Proof.
  intros Hx Hs [|y a] b H.
  - injection H as -> _. now destruct Hx.
  - rewrite TextFacts.app_String in H. injection H as _ H. now apply (Hs a b).
Qed.

(** The first piece of a split holds no separator. *)
Lemma split_from_hd_free c cur s q qs :
  Text.split_from (String c "") 0 cur s = q :: qs ->
  exists q', q = Text.rev_append cur "" +:+ q' /\ Text.free_of c q'.
Proof.
  revert cur. induction s as [|x s IH]; intros cur; simpl.
  - intros [= <- _]. exists "". split; [now rewrite TextFacts.app_empty_r|].
    apply free_of_empty.
  - destruct (Ascii.eqb c x) eqn:E.
    + intros [= <- _]. exists "". split; [now rewrite TextFacts.app_empty_r|].
      apply free_of_empty.
    + intros H. destruct (IH _ H) as (q' & -> & Hfree).
      exists (String x q'). split.
      * simpl. rewrite (TextFacts.rev_append_app cur (String x "")).
        now rewrite TextFacts.app_assoc.
      * apply free_of_String; [|exact Hfree].
        intros ->. now rewrite Ascii.eqb_refl in E.
Qed.

Lemma split_hd_free c s key parts :
  Text.split (String c "") s = key :: parts -> Text.free_of c key.
Proof.
  intros H. destruct (split_from_hd_free _ _ _ _ _ H) as (q' & -> & Hfree).
  exact Hfree.
Qed.

Lemma split_rejoin c s key parts :
  Text.split (String c "") s = key :: parts -> parts <> [] ->
  s = key +:+ String c "" +:+ Text.join (String c "") parts.
Proof.
  intros H Hparts. rewrite <- (TextFacts.join_split c s) at 1. rewrite H.
  destruct parts as [|q qs]; [contradiction|reflexivity].
Qed.

(** What one header line does to the headers to forward. *)
Lemma parse_header_cases (o : Obj.t) (header : string) :
  (exists t, parse_header o header = (t, Normal o))
  \/ (exists name rest,
        header = name +:+ ":" +:+ rest /\ forwardable name
        /\ parse_header o header = ([], Normal (Obj.define name (Text.trim rest) o))).
Proof.
  unfold parse_header.
  destruct (Text.split ":" header) as [|key parts] eqn:Hsplit; [left; now eexists|].
  destruct (negb (String.eqb key "")) eqn:Hkey; simpl; [|left; now eexists].
  destruct parts as [|q qs] eqn:Hparts; [left; now eexists|].
  rewrite <- Hparts in *. replace (0 <? Z.of_nat (length parts))%Z with true
    by (subst parts; reflexivity).
  destruct (String.eqb (Text.toLowerCase key) "status") eqn:Hstatus;
    [left; now eexists|].
  unfold Obj.set.
  destruct (String.eqb key "__proto__") eqn:Hproto; [left; now eexists|].
  right. exists key, (Text.join ":" parts). split; [|split; [|reflexivity]].
  - apply split_rejoin; [exact Hsplit|]. subst parts. discriminate.
  - apply negb_true_iff, String.eqb_neq in Hkey.
    apply String.eqb_neq in Hstatus, Hproto.
    repeat split; try assumption. exact (split_hd_free _ _ _ _ Hsplit).
Qed.

Lemma In_define_inv k v kv o :
  In kv (Obj.define k v o) -> kv = (k, v) \/ In kv o.
Proof.
  induction o as [|[j w] o IH]; simpl.
  - intuition.
  - destruct (String.eqb k j) eqn:E; simpl.
    + apply String.eqb_eq in E. subst j. intuition.
    + intuition.
Qed.

Lemma parse_lines_origin lines o t o' :
  forEach lines parse_header o = (t, Normal o') ->
  forall name value, In (name, value) o' ->
    In (name, value) o
    \/ (forwardable name
        /\ exists rest, In (name +:+ ":" +:+ rest) lines /\ value = Text.trim rest).
Proof.
  revert o t. induction lines as [|line lines IH]; intros o t Hrun name value Hin.
  - injection Hrun as _ <-. now left.
  - apply forEach_cons_inv in Hrun as (t1 & o1 & t2 & Hline & Hrest & _).
    destruct (IH _ _ Hrest _ _ Hin) as [Hin1|(Hok & rest & Hl & Hv)].
    + destruct (parse_header_cases o line) as [[t' H]|(n & r & Hform & Hok & H)];
        rewrite H in Hline; injection Hline as _ <-; [now left|].
      apply In_define_inv in Hin1 as [[= -> ->]|Hin1]; [|now left].
      right. split; [exact Hok|]. exists r. split; [now left|reflexivity].
    + right. split; [exact Hok|]. exists rest. split; [now right|exact Hv].
Qed.

Lemma parse_lines_NoDup lines o t o' :
  forEach lines parse_header o = (t, Normal o') ->
  List.NoDup (obj_keys o) -> List.NoDup (obj_keys o').
Proof.
  revert o t. induction lines as [|line lines IH]; intros o t Hrun Hnd.
  - injection Hrun as _ <-. exact Hnd.
  - apply forEach_cons_inv in Hrun as (t1 & o1 & t2 & Hline & Hrest & _).
    apply (IH _ _ Hrest).
    destruct (parse_header_cases o line) as [[t' H]|(n & r & _ & _ & H)];
      rewrite H in Hline; injection Hline as _ <-;
      [exact Hnd|now apply ObjLaws.NoDup_define].
Qed.

Lemma parse_lines_lookup_other lines o t o' name :
  forEach lines parse_header o = (t, Normal o') ->
  (forall line rest, In line lines -> line <> name +:+ ":" +:+ rest) ->
  Obj.lookup name o' = Obj.lookup name o.
Proof.
  revert o t. induction lines as [|line lines IH]; intros o t Hrun Hother.
  - now injection Hrun as _ <-.
  - apply forEach_cons_inv in Hrun as (t1 & o1 & t2 & Hline & Hrest & _).
    rewrite (IH _ _ Hrest) by (intros l r Hl; apply Hother; now right).
    destruct (parse_header_cases o line) as [[t' H]|(n & r & Hform & _ & H)];
      rewrite H in Hline; injection Hline as _ <-; [reflexivity|].
    apply ObjLaws.lookup_define_ne. intros ->.
    now apply (Hother line r (or_introl eq_refl)).
Qed.

Lemma parse_header_sets_no_header (o : Obj.t) (header : string) :
  forallb (fun e => negb (match e with res_setHeader _ _ => true | _ => false end))
          (fst (parse_header o header)) = true.
Proof.
  unfold parse_header.
  destruct (Text.split ":" header) as [|key valueParts]; [reflexivity|].
  destruct (_ && _); [|reflexivity].
  destruct (String.eqb _ _); reflexivity.
Qed.

(** The calls of a header translation: those of the lines, none of
    which is a [setHeader], then one [setHeader] for each recorded
    property. *)
Lemma translate_headers_calls (o : Obj.t) (section : string) :
  exists statuses o',
    forEach (Text.split CRLF section) parse_header o = (statuses, Normal o')
    /\ trace (translate_headers o section)
       = statuses ++ map (fun kv => res_setHeader (fst kv) (snd kv)) (Obj.entries o')
    /\ (forall name value, ~ In (res_setHeader name value) statuses).
Proof.
  destruct (forEach_total parse_header parse_header_total (Text.split CRLF section) o)
    as (statuses & o' & Hrun).
  exists statuses, o'. split; [exact Hrun|]. split.
  - unfold translate_headers, trace.
    rewrite (bind_Normal _ _ _ _ Hrun), set_headers_trace. simpl.
    now rewrite app_nil_r.
  - intros name value Hin.
    pose proof (forEach_trace_forallb _ parse_header parse_header_sets_no_header
                  (Text.split CRLF section) o) as Hall.
    rewrite Hrun in Hall. simpl in Hall.
    rewrite forallb_forall in Hall. now specialize (Hall _ Hin).
Qed.

Lemma header_names_app t1 t2 : header_names (t1 ++ t2) = header_names t1 ++ header_names t2.
Proof. apply flat_map_app. Qed.

Lemma header_names_setHeaders (l : list (string * string)) :
  header_names (map (fun kv => res_setHeader (fst kv) (snd kv)) l) = map fst l.
Proof. induction l as [|kv l IH]; simpl; [reflexivity|]. now rewrite IH. Qed.

Lemma header_names_none t :
  (forall name value, ~ In (res_setHeader name value) t) -> header_names t = [].
Proof.
  induction t as [|e t IH]; intros H; [reflexivity|].
  simpl. rewrite IH by (intros n v Hin; apply (H n v); now right).
  destruct e; try reflexivity. now destruct (H name value (or_introl eq_refl)).
Qed.

Lemma In_setHeaders name value (statuses : list effect) (l : list (string * string)) :
  (forall n v, ~ In (res_setHeader n v) statuses) ->
  In (res_setHeader name value)
     (statuses ++ map (fun kv => res_setHeader (fst kv) (snd kv)) l)
  <-> In (name, value) l.
Proof.
  intros Hnone. rewrite in_app_iff, in_map_iff. split.
  - intros [Hin|([k v] & [= -> ->] & Hin)]; [now destruct (Hnone name value)|exact Hin].
  - intros Hin. right. now exists (name, value).
Qed.

(** X8.  Every header that a translation forwards stems from a line
    of the header section: the line is the header's name, a colon, and a
    text whose trimmed form is the header's value.  The name is not
    empty, holds no colon, is not [status] in any letter case and is not
    [__proto__]; so the [Status] line is never forwarded. *)
Theorem X8_forwarded_headers_stem_from_lines
    (section name value : string) :
  In (res_setHeader name value) (trace (translate_headers Obj.empty section)) ->
  forwardable name
  /\ exists rest,
       In (name +:+ ":" +:+ rest) (Text.split CRLF section)
       /\ value = Text.trim rest.
Proof.
  destruct (translate_headers_calls Obj.empty section)
    as (statuses & o' & Hrun & -> & Hnone).
  rewrite (In_setHeaders _ _ _ _ Hnone). intros Hin.
  apply (proj1 (ObjFacts.In_entries _ _)) in Hin.
  destruct (parse_lines_origin _ _ _ _ Hrun _ _ Hin) as [[]|H]. exact H.
Qed.

Lemma X8_forwarded_headers_stem_from_lines_witness :
  forwardable "Content-Type"
  /\ exists rest,
       In ("Content-Type" +:+ ":" +:+ rest)
          (Text.split CRLF ("Status: 200 OK" +:+ CRLF +:+ "Content-Type: text/plain "))
       /\ "text/plain" = Text.trim rest.
Proof.
  refine (X8_forwarded_headers_stem_from_lines
            ("Status: 200 OK" +:+ CRLF +:+ "Content-Type: text/plain ")
            "Content-Type" "text/plain" _).
  right. left. reflexivity.
Defined.

(** X9.  One translation passes each header name to [setHeader] at
    most once (names compared exactly, letter case included). *)
Theorem X9_each_header_name_set_once (section : string) :
  List.NoDup (header_names (trace (translate_headers Obj.empty section))).
Proof.
  destruct (translate_headers_calls Obj.empty section)
    as (statuses & o' & Hrun & -> & Hnone).
  rewrite header_names_app, (header_names_none _ Hnone), header_names_setHeaders.
  apply ObjLaws.NoDup_entries, (parse_lines_NoDup _ _ _ _ Hrun). constructor.
Qed.

Lemma forwardable_check name :
  negb (String.eqb name "") && negb (String.eqb (Text.toLowerCase name) "status")
  && negb (String.eqb name "__proto__") && negb (Text.includes ":" name) = true ->
  forwardable name.
Proof.
  intros H. repeat (apply andb_true_iff in H as [H ?]).
  repeat match goal with
         | H : negb _ = true |- _ => apply negb_true_iff in H
         end.
  repeat split; try (now apply String.eqb_neq). now apply free_of_check.
Qed.

(** ** The parser's state *)

Lemma forEach_trace_In {A S} (f : S -> A -> Eff S) (e : effect) l s :
  In e (fst (forEach l f s)) -> exists a s', In a l /\ In e (fst (f s' a)).
Proof.
  revert s. induction l as [|a l IH]; intros s; simpl; [intros []|].
  unfold bind. destruct (f s a) as [t1 [s1|err]] eqn:E; simpl.
  - rewrite in_app_iff. intros [Hin|Hin].
    + exists a, s. split; [now left|]. now rewrite E.
    + destruct (IH _ Hin) as (a' & s' & Ha & He). exists a', s'. split; [now right|exact He].
  - intros Hin. exists a, s. split; [now left|]. now rewrite E.
Qed.

Section ParserState.
Variable Buffer_toString : list byte -> string.
Local Open Scope nat_scope.

Local Abbreviation on_event := (on_event Buffer_toString).
Local Abbreviation on_stdout_data := (on_stdout_data Buffer_toString).

Lemma on_event_parsed st ev :
  headersParsed st = true -> exists t, on_event st ev = (t, Normal st).
Proof.
  intros Hst. destruct ev as [error|chunk| |data]; simpl; try (now eexists).
  rewrite on_stdout_data_parsed by exact Hst. now eexists.
Qed.

Lemma run_frozen events st :
  headersParsed st = true -> exists t, forEach events on_event st = (t, Normal st).
Proof.
  intros Hst. induction events as [|ev events IH]; [now exists []|].
  destruct IH as [t2 IH]. destruct (on_event_parsed st ev Hst) as [t1 H1].
  exists (t1 ++ t2). simpl. rewrite (bind_Normal _ _ _ _ H1), IH. reflexivity.
Qed.

(** X11.  What the backend writes to its standard error is logged and
    has no other effect: without those events the run ends in the same
    state and makes the same calls, the ones on [console] aside. *)
Theorem X11_stderr_only_reaches_the_log (events : list backend_event) (st : proxy) :
  snd (forEach events on_event st) = snd (forEach (without_stderr events) on_event st)
  /\ non_log_calls (fst (forEach events on_event st))
     = non_log_calls (fst (forEach (without_stderr events) on_event st)).
Proof.
  revert st. induction events as [|ev events IH]; intros st; [now split|].
  destruct (is_stderr ev) eqn:Hev.
  - destruct ev; try discriminate. specialize (IH st).
    unfold without_stderr in *. simpl List.filter.
    cbn [forEach]. unfold bind. simpl.
    destruct (forEach events on_event st) as [t r]. simpl in *. exact IH.
  - assert (without_stderr (ev :: events) = ev :: without_stderr events) as ->
      by (unfold without_stderr; simpl; now rewrite Hev).
    destruct (on_event_total Buffer_toString st ev) as (t1 & st1 & H1).
    cbn [forEach]. rewrite !(bind_Normal _ _ _ _ H1). simpl.
    destruct (IH st1) as [IHs IHt]. split; [exact IHs|].
    unfold non_log_calls in *. now rewrite !List.filter_app, IHt.
Qed.

(** X12.  Once the header block has been translated, the variables of
    the closure never change again, whatever the backend delivers: the
    body is not buffered and the recorded headers stay as they are. *)
Theorem X12_state_frozen_after_translation
    (events : list backend_event) (st : proxy) :
  headersParsed st = true ->
  snd (forEach events on_event st) = Normal st.
Proof.
  intros Hst. destruct (run_frozen events st Hst) as [t ->]. reflexivity.
Qed.




Lemma on_stdout_data_writes st chunk w :
  In (res_write w) (fst (on_stdout_data st chunk)) -> chunk <> [] -> w <> [].
Proof.
  intros Hin Hchunk. destruct (headersParsed st) eqn:Hst.
  - rewrite on_stdout_data_parsed in Hin by exact Hst.
    destruct Hin as [[= <-]|[]]. exact Hchunk.
  - destruct (indexOf CRLFCRLF (responseBuffer st ++ chunk)) as [i|] eqn:Hi.
    + revert Hin. unfold on_stdout_data.
      rewrite Hst, Hi. simpl negb. cbv iota.
      pose proof (translate_headers_heads (responseHeaders st)
                    (Buffer_toString (take i (responseBuffer st ++ chunk)))) as Hheads.
      destruct (translate_headers_total (responseHeaders st)
                  (Buffer_toString (take i (responseBuffer st ++ chunk))))
        as (t & o' & Ht).
      unfold trace in Hheads. rewrite Ht in Hheads. simpl in Hheads.
      rewrite (bind_Normal _ _ _ _ Ht). simpl fst. rewrite in_app_iff.
      intros [Hin|Hin].
      * rewrite forallb_forall in Hheads. specialize (Hheads _ Hin). discriminate.
      * destruct (drop (i + 4) (responseBuffer st ++ chunk)) as [|b body];
          simpl in Hin; [destruct Hin|].
        destruct Hin as [[= <-]|[]]. discriminate.
    + rewrite on_stdout_data_wait in Hin by assumption. destruct Hin.
Qed.

(** X15.  [res.write] is never called with an empty buffer, provided
    the backend's chunks are not empty (Node delivers none that is): a
    header block that ends its chunk leads to no write at all. *)
Theorem X15_no_empty_write
    (events : list backend_event) (st : proxy) (w : list byte) :
  (forall chunk, In (stdout_data chunk) events -> chunk <> []) ->
  In (res_write w) (fst (forEach events on_event st)) ->
  w <> [].
Proof.
  intros Hchunks Hin.
  apply forEach_trace_In in Hin as (ev & st' & Hev & Hin).
  destruct ev as [error|chunk| |data]; simpl in Hin.
  - destruct Hin as [H|[H|[H|[]]]]; discriminate.
  - apply (on_stdout_data_writes st' chunk w Hin). now apply Hchunks.
  - destruct Hin as [H|[]]. discriminate.
  - destruct Hin as [H|[]]. discriminate.
Qed.

End ParserState.

Lemma X12_state_frozen_after_translation_witness :
  snd (forEach [stdout_data (bytes "more"); child_error "late"; stdout_end]
         (on_event sample_toString)
         {| responseHeaders := [("Content-Type", "text/plain")];
            headersParsed := true;
            responseBuffer := sample_head ++ CRLFCRLF |})
  = Normal {| responseHeaders := [("Content-Type", "text/plain")];
              headersParsed := true;
              responseBuffer := sample_head ++ CRLFCRLF |}.
Proof.
  refine (X12_state_frozen_after_translation sample_toString _ _ _). reflexivity.
Defined.

Lemma X15_no_empty_write_witness : sample_body <> [].
Proof.
  refine (X15_no_empty_write sample_toString (map stdout_data sample_chunks)
            fresh_proxy sample_body _ _).
  - intros chunk [H|[H|[H|[]]]]; injection H as <-; discriminate.
  - right. right. left. reflexivity.
Defined.

(** ** Provisioning, run after run *)

Section ProvisioningRuns.
Variable sh : string -> gset string -> option (gset string).

Lemma provision_repository_post p fs repoName t fs' :
  (forall fs0 fs1, sh (init_command (repoPath_of p repoName)) fs0 = Some fs1 ->
                   repoPath_of p repoName ∈ fs1 /\ fs0 ⊆ fs1) ->
  provision_repository sh p fs repoName = (t, Normal fs') ->
  repoPath_of p repoName ∈ fs' /\ fs ⊆ fs'.
Proof.
  intros Hsh. unfold provision_repository, bind. simpl.
  destruct (bool_decide (repoPath_of p repoName ∈ fs)) eqn:E; simpl.
  - intros [= _ <-]. apply bool_decide_eq_true_1 in E. now split.
  - destruct (sh (init_command (repoPath_of p repoName)) fs) as [fs1|] eqn:Hrun;
      simpl; [|discriminate].
    intros [= _ <-]. now apply Hsh.
Qed.

(** X17.  Suppose the shell command, whenever it succeeds for one of
    the repositories, leaves that repository's directory behind and
    removes nothing.  Then a provisioning run that completes leaves every
    repository directory in place, and a second run over the result
    creates nothing: it finds each directory, logs so, and returns the
    same filesystem. *)
Theorem X17_second_run_creates_nothing
    (p : process) (names : list string) (fs fs' : gset string) (t : list effect) :
  (forall repoName fs0 fs1,
      In repoName names ->
      sh (init_command (repoPath_of p repoName)) fs0 = Some fs1 ->
      repoPath_of p repoName ∈ fs1 /\ fs0 ⊆ fs1) ->
  provision sh p names fs = (t, Normal fs') ->
  fs ⊆ fs'
  /\ (forall repoName, In repoName names -> repoPath_of p repoName ∈ fs')
  /\ provision sh p names fs' = (flat_map (found_calls p) names, Normal fs').
Proof.
  intros Hsh Hrun.
  assert (fs ⊆ fs' /\ forall repoName, In repoName names -> repoPath_of p repoName ∈ fs')
    as [Hsub Hall].
  { unfold provision in Hrun. revert fs t Hrun.
    induction names as [|name names IH]; intros fs t Hrun.
    - injection Hrun as _ <-. split; [reflexivity|intros ? []].
    - apply forEach_cons_inv in Hrun as (t1 & fs1 & t2 & H1 & H2 & _).
      destruct (provision_repository_post p fs name t1 fs1) as [Hin1 Hsub1];
        [intros fs0 fs2; apply Hsh; now left|exact H1|].
      destruct (IH (fun n fs0 fs2 Hn => Hsh n fs0 fs2 (or_intror Hn)) _ _ H2)
        as [Hsub2 Hin2].
      split; [by etrans|].
      intros repoName [<-|Hin]; [by apply Hsub2|auto]. }
  split; [exact Hsub|]. split; [exact Hall|]. now apply provision_found.
Qed.

(** X18.  A failing shell command ends provisioning on the spot: the
    repositories before the failing one were found, the failing one was
    checked, announced and attempted, the exception of [execSync]
    escapes, and the repositories after it are not even looked at. *)
Theorem X18_failed_command_aborts_startup
    (p : process) (before after : list string) (repoName : string)
    (fs : gset string) :
  (forall name, In name before -> repoPath_of p name ∈ fs) ->
  repoPath_of p repoName ∉ fs ->
  sh (init_command (repoPath_of p repoName)) fs = None ->
  provision sh p (before ++ repoName :: after) fs
  = (flat_map (found_calls p) before
       ++ [ fs_existsSync (repoPath_of p repoName);
            console_log ("Create " +:+ dq +:+ repoName +:+ dq +:+ " git bare repository");
            child_execSync (init_command (repoPath_of p repoName)) ],
     Thrown "Error: Command failed").
Proof.
  intros Hbefore Hmissing Hfail. unfold provision.
  rewrite (forEach_app _ _ _ _ _ _ (provision_found sh p before fs Hbefore)).
  cbn [forEach]. unfold provision_repository at 1 3.
  rewrite bool_decide_eq_false_2 by exact Hmissing. rewrite Hfail.
  reflexivity.
Qed.

End ProvisioningRuns.

Lemma X17_second_run_creates_nothing_witness :
  provision sample_shell_all sample_process bootstrap_repositories
    ({[ "/srv/git-server-volume/repos1.git";
        "/srv/git-server-volume/repos2.git";
        "/srv/git-server-volume/repos3.git" ]} ∪ ∅)
  = (flat_map (found_calls sample_process) bootstrap_repositories,
     Normal ({[ "/srv/git-server-volume/repos1.git";
                "/srv/git-server-volume/repos2.git";
                "/srv/git-server-volume/repos3.git" ]} ∪ ∅)).
Proof.
  refine (proj2 (proj2 (X17_second_run_creates_nothing sample_shell_all sample_process
                          bootstrap_repositories ∅ _ _ _ _))).
  - intros repoName fs0 fs1 Hin [= <-]. split; [|apply union_subseteq_r].
    apply elem_of_union. left.
    destruct Hin as [<-|[<-|[<-|[]]]]; apply (bool_decide_unpack _); vm_compute; exact I.
  - reflexivity.
Defined.

Lemma X18_failed_command_aborts_startup_witness :
  snd (provision sample_shell_failing sample_process bootstrap_repositories
         {[ "/srv/git-server-volume/repos1.git" ]})
  = Thrown "Error: Command failed".
Proof.
  refine (f_equal snd (X18_failed_command_aborts_startup sample_shell_failing
                         sample_process ["repos1"] ["repos3"] "repos2"
                         {[ "/srv/git-server-volume/repos1.git" ]} _ _ _)).
  - intros name [<-|[]]. apply (bool_decide_unpack _). vm_compute. exact I.
  - apply (bool_decide_unpack _). vm_compute. exact I.
  - reflexivity.
Defined.

(** ** From request to response *)

Section EndToEnd.
Variable Buffer_toString : list byte -> string.
Local Open Scope nat_scope.

Local Abbreviation on_event := (on_event Buffer_toString).
Local Abbreviation on_stdout_data := (on_stdout_data Buffer_toString).



End EndToEnd.

Lemma X4_environment_inherited_and_overridden_witness :
  cgi_env sample_process (sample_request "GET" "/git/repos1.git/info/refs")
    {| pathname := "/git/repos1.git/info/refs"; searchParams := [] |} !! "HOME"
  = Some "/home/git".
Proof.
  refine (proj1 (X4_environment_inherited_and_overridden sample_process
                   (sample_request "GET" "/git/repos1.git/info/refs")
                   {| pathname := "/git/repos1.git/info/refs"; searchParams := [] |}
                   "HOME") _).
  simpl. intuition discriminate.
Defined.

Lemma X5_server_name_and_port_witness :
  cgi_env sample_process (sample_request "GET" "/git/repos1.git/info/refs")
    {| pathname := "/git/repos1.git/info/refs"; searchParams := [] |} !! "SERVER_NAME"
  = Some "localhost"
  /\ cgi_env sample_process (sample_request "GET" "/git/repos1.git/info/refs")
       {| pathname := "/git/repos1.git/info/refs"; searchParams := [] |} !! "SERVER_PORT"
     = Some "3334".
Proof.
  refine (proj2 (proj2 (X5_server_name_and_port sample_process
                          (sample_request "GET" "/git/repos1.git/info/refs")
                          {| pathname := "/git/repos1.git/info/refs";
                             searchParams := [] |}))
            "localhost" "3334" "3334" _ _ _ _).
  - reflexivity.
  - apply free_of_check. reflexivity.
  - apply free_of_check. reflexivity.
  - left. reflexivity.
Defined.

(** * The calls as Node takes them *)

(** ** Replaying calls *)

Module NodeFacts.
Import Node.

Lemma run_app w t1 t2 :
  run w (t1 ++ t2)
  = match snd (run w t1) with
    | alive w' => (fst (run w t1) ++ fst (run w' t2), snd (run w' t2))
    | dead why => (fst (run w t1), dead why)
    end.
Proof.
  revert w. induction t1 as [|e t1 IH]; intros w; simpl.
  - now destruct (run w t2).
  - destruct (perform w e) as [w1|]; simpl; [|reflexivity].
    rewrite IH. now destruct (snd (run w1 t1)).
Qed.

(** A run that survives has made every call. *)
Lemma run_alive w t w' : snd (run w t) = alive w' -> fst (run w t) = t.
Proof.
  revert w. induction t as [|e t IH]; intros w; simpl; [reflexivity|].
  destruct (perform w e) as [w1|]; simpl; [|discriminate].
  intros H. now rewrite (IH _ H).
Qed.

(** A run that dies has made the calls before the one that threw. *)
Lemma run_dead w t why :
  snd (run w t) = dead why ->
  exists e rest, why = rejected e /\ t = fst (run w t) ++ e :: rest.
Proof.
  revert w. induction t as [|e t IH]; intros w; simpl; [discriminate|].
  destruct (perform w e) as [w1|]; simpl.
  - intros H. destruct (IH _ H) as (e' & rest & -> & Hsplit).
    exists e', rest. split; [reflexivity|]. now rewrite <- Hsplit.
  - intros [= <-]. now exists e, t.
Qed.

(** The calls made are always the first of the calls attempted. *)
Lemma run_prefix w t : exists rest, t = fst (run w t) ++ rest.
Proof.
  destruct (snd (run w t)) as [w'|why] eqn:E.
  - exists []. now rewrite (run_alive _ _ _ E), app_nil_r.
  - destruct (run_dead _ _ _ E) as (e & rest & _ & H). now exists (e :: rest).
Qed.

(** Status and header calls on a response whose head is not sent: all
    are made when the headers are acceptable ... *)
Lemma run_heads_ok w t :
  forallb is_head t = true ->
  headersSent (res w) = false ->
  headers_ok t = true ->
  run w t = (t, alive (open_response w (status_after t (statusCode (res w))))).
Proof.
  revert w. induction t as [|e t IH]; intros w Hheads Hsent Hok.
  - destruct w as [c [code sent fin]]. simpl in *. now subst.
  - simpl in Hheads, Hok. apply andb_true_iff in Hheads as [He Hheads].
    apply andb_true_iff in Hok as [Hv Hok].
    destruct e; try discriminate; simpl.
    + rewrite IH by assumption. reflexivity.
    + rewrite Hsent, Hv. simpl. now rewrite IH.
Qed.

(** ... and otherwise the run dies inside them, whatever follows. *)
Lemma run_heads_bad w t more :
  forallb is_head t = true ->
  headersSent (res w) = false ->
  headers_ok t = false ->
  exists done e,
    run w (t ++ more) = (done, dead (rejected e))
    /\ forallb is_head done = true.
Proof.
  revert w. induction t as [|e t IH]; intros w Hheads Hsent Hok; [discriminate|].
  simpl in Hheads, Hok. apply andb_true_iff in Hheads as [He Hheads].
  destruct e; try discriminate; simpl.
  - simpl in Hok. destruct (IH (open_response w code)) as (done & e & Hrun & Hdone);
      try assumption; [reflexivity|].
    unfold open_response in Hrun. simpl in Hrun. rewrite Hsent. rewrite Hrun.
    simpl. now exists (res_statusCode code :: done), e.
  - rewrite Hsent. destruct (is_token name && valid_value value) eqn:Hv.
    + simpl in Hok. destruct (IH w) as (done & e & Hrun & Hdone); try assumption.
      rewrite Hrun. simpl. now exists (res_setHeader name value :: done), e.
    + now exists [], (res_setHeader name value).
Qed.




(** Once the response has ended, harmless calls change nothing. *)
Lemma run_after_end w t :
  forallb is_harmless t = true ->
  finished (res w) = true ->
  run w t = (t, alive w).
Proof.
  intros Hcalls Hfin. induction t as [|e t IH]; [reflexivity|].
  simpl in Hcalls. apply andb_true_iff in Hcalls as [He Hcalls].
  destruct e as [| | | | | | | | |[d|]]; try discriminate; simpl;
    rewrite ?Hfin, (IH Hcalls); reflexivity.
Qed.

(** The two calls of a dispatch, when [spawn] returns a child with its
    streams. *)
Lemma run_dispatch w command args env :
  child w = spawned \/ child w = failed_with_streams ->
  run w [child_spawn command args env; req_pipe_stdin]
  = ([child_spawn command args env; req_pipe_stdin], alive w).
Proof. intros [H|H]; simpl; rewrite H; simpl; rewrite H; reflexivity. Qed.

(** A run without rejected call has made every call. *)
Lemma accepted_calls w t : accepts w t = true -> fst (run w t) = t.
Proof.
  unfold accepts. destruct (snd (run w t)) as [w'|why] eqn:E; [|discriminate].
  intros _. exact (run_alive _ _ _ E).
Qed.

(** The calls made are among the calls attempted. *)
Lemma run_In w t e : In e (fst (run w t)) -> In e t.
Proof.
  intros Hin. destruct (run_prefix w t) as [rest Hsplit].
  rewrite Hsplit. apply in_or_app. now left.
Qed.

Section Process.
Variable Buffer_toString : list byte -> string.

(** Listener after listener, the process makes the first of the calls
    that the listeners attempt. *)
Lemma listen_run events w st :
  listen Buffer_toString w st (map to_listener events)
  = run w (fst (forEach events (on_event Buffer_toString) st)).
Proof.
  revert w st. induction events as [|ev events IH]; intros w st; [reflexivity|].
  destruct (on_event_total Buffer_toString st ev) as (t & st' & Hev).
  cbn [map listen forEach]. rewrite (bind_Normal _ _ _ _ Hev), Hev. simpl fst.
  rewrite run_app.
  destruct (run w t) as [done [w'|why]]; simpl; [|reflexivity].
  now rewrite IH.
Qed.

End Process.

End NodeFacts.

(** ** Requests as sent *)

Example new_URL_samples :
  Target.new_URL "/a/./b/../c" = Some (Target.Parsed "/a/c" "")
  /\ Target.new_URL "/git/a/%2E%2e/b" = Some (Target.Parsed "/git/b" "")
  /\ Target.new_URL "/git/a/.." = Some (Target.Parsed "/git/" "")
  /\ Target.new_URL "/../.." = Some (Target.Parsed "/" "")
  /\ Target.new_URL "/a\b" = Some (Target.Parsed "/a/b" "")
  /\ Target.new_URL "/git/a..b//c" = Some (Target.Parsed "/git/a..b//c" "")
  /\ Target.new_URL "/a{b}?x=1#y" = Some (Target.Parsed "/a%7Bb%7D" "?x=1#y")
  /\ Target.new_URL "//" = Some Target.Throws
  /\ Target.new_URL "//example.org/x" = None.
Proof. repeat split. Qed.

(** C1, as the spec states it, fails on the path as the client sends
    it.  The URL parser removes the dot segments before the check
    runs: the first target has [..] after [/git/] and is answered with
    404; the second has [..] after [/git/] and is handed to the
    backend, and so is the third, where the dots are percent-encoded. *)
Lemma C1_dot_segments_are_removed_first :
  requestHandler sample_process <$> Target.incoming "GET" "/git/repos1.git/../../etc/passwd"
  = Some ([res_statusCode (Int 404);
           res_setHeader "Content-Type" "text/plain";
           res_end (Some "Not Found")], Normal None)
  /\ (fun req => existsb is_outside (trace (requestHandler sample_process req)))
       <$> Target.incoming "GET" "/git/repos1.git/../repos2.git/HEAD"
     = Some true
  /\ (fun req => existsb is_outside (trace (requestHandler sample_process req)))
       <$> Target.incoming "GET" "/git/repos1.git/%2e%2e/repos2.git/HEAD"
     = Some true.
Proof. repeat split. Qed.

(** C7, as the spec states it, fails on the path as the client sends
    it.  The first target does not begin with [/git/], yet its dot
    segment brings it under [/git/] and the backend is spawned; the
    second makes the URL constructor throw, and the handler with it,
    before any call on the response. *)
Lemma C7_other_paths_are_not_all_answered :
  (fun req => existsb is_outside (trace (requestHandler sample_process req)))
    <$> Target.incoming "GET" "/x/../git/repos1.git/info/refs"
  = Some true
  /\ requestHandler sample_process <$> Target.incoming "GET" "//"
     = Some ([], Thrown "TypeError: Invalid URL").
Proof. split; reflexivity. Qed.

(** ** Responses as delivered *)

Section Delivery.
Variable Buffer_toString : list byte -> string.
Local Open Scope nat_scope.

Local Abbreviation on_event := (on_event Buffer_toString).
Local Abbreviation on_stdout_data := (on_stdout_data Buffer_toString).

(** The process makes the first of the calls that the handler and the
    listeners attempt. *)
Lemma serve_run w p req events t r :
  requestHandler p req = (t, Normal r) ->
  Node.serve Buffer_toString w p req (map Node.to_listener events)
  = Node.run w (trace (serve Buffer_toString p req events)).
Proof.
  intros Hreq. unfold Node.serve. rewrite Hreq. destruct r as [st|].
  - destruct (events_total Buffer_toString events st) as (te & st' & Hrun).
    rewrite (serve_proxied Buffer_toString _ _ _ _ _ _ _ Hreq Hrun).
    unfold trace. simpl fst. rewrite NodeFacts.run_app.
    destruct (Node.run w t) as [done [w'|why]]; simpl; [|reflexivity].
    now rewrite NodeFacts.listen_run, Hrun.
  - unfold serve. rewrite (bind_Normal _ _ _ _ Hreq). unfold trace. simpl.
    rewrite app_nil_r. now destruct (Node.run w t) as [done [w'|why]].
Qed.

(** The stdout chunks of a backend whose output has a first delimiter:
    what the listener attempts. *)
Lemma chunks_run (chunks : list (list byte)) (pre post : list byte) :
  concat chunks = pre ++ CRLFCRLF ++ post ->
  (forall pre' post',
      concat chunks = pre' ++ CRLFCRLF ++ post' -> length pre <= length pre') ->
  exists ws st',
    forEach (map stdout_data chunks) on_event fresh_proxy
    = (trace (translate_headers Obj.empty (Buffer_toString pre)) ++ map res_write ws,
       Normal st')
    /\ concat ws = post
    /\ headersParsed st' = true.
Proof.
  intros Hdec Hmin.
  pose proof (indexOf_first _ _ _ _ Hdec Hmin) as Hi.
  destruct (run_unparsed Buffer_toString (map stdout_data chunks) fresh_proxy
              eq_refl eq_refl (error_free_data chunks))
    as (t & st' & Hrun & Hcase).
  simpl in Hcase. rewrite stdout_bytes_data, Hi in Hcase.
  destruct Hcase as (Hparsed & ws & Hcalls & Hws).
  pose proof (data_run_res_calls Buffer_toString chunks fresh_proxy) as Hall.
  rewrite Hrun in Hall. simpl in Hall. rewrite Hall in Hcalls.
  exists ws, st'. rewrite Hrun, Hcalls, Hws, Hdec.
  rewrite take_app_length, app_assoc, drop_app_length'
    by (rewrite length_app; reflexivity).
  now repeat split.
Qed.



End Delivery.



(** ** Header lines, as forwarded *)



Example status_is_a_double :
  parse_header Obj.empty "Status: 9007199254740993"
  = ([res_statusCode (Int 9007199254740992)], Normal Obj.empty)
  /\ parse_header Obj.empty "Status: -0" = ([res_statusCode NegZero], Normal Obj.empty).
Proof. split; reflexivity. Qed.

(** X10.  Of the lines of a header section that carry the same
    forwardable name, the last one decides: no call of [setHeader] with
    that name has another value than the trimmed value of that line, and
    when Node rejects no call of the translation the header is set with
    that value. *)
Theorem X10_last_line_of_a_name_decides
    (section name rest : string) (before after : list string) :
  Text.split CRLF section = before ++ (name +:+ ":" +:+ rest) :: after ->
  forwardable name ->
  (forall line rest', In line after -> line <> name +:+ ":" +:+ rest') ->
  let t := trace (translate_headers Obj.empty section) in
  forall w,
    (forall value,
        In (res_setHeader name value) (fst (Node.run w t)) -> value = Text.trim rest)
    /\ (Node.accepts w t = true ->
        In (res_setHeader name (Text.trim rest)) (fst (Node.run w t))).
Proof.
  intros Hsplit (Hname & Hstatus & Hproto & Hfree) Hafter t.
  assert (forall value, In (res_setHeader name value) t <-> value = Text.trim rest)
    as Hiff.
  { intros value. subst t.
    destruct (translate_headers_calls Obj.empty section)
      as (statuses & o' & Hrun & -> & Hnone).
    rewrite (In_setHeaders _ _ _ _ Hnone), ObjFacts.In_entries.
    assert (List.NoDup (obj_keys o')) as Hnd
      by (apply (parse_lines_NoDup _ _ _ _ Hrun); constructor).
    assert (Obj.lookup name o' = Some (Text.trim rest)) as Hlookup.
    { rewrite Hsplit in Hrun.
      destruct (forEach_total parse_header parse_header_total before Obj.empty)
        as (t1 & o1 & Hbefore).
      rewrite (forEach_app _ _ _ _ _ _ Hbefore) in Hrun.
      destruct (forEach ((name +:+ ":" +:+ rest) :: after) parse_header o1)
        as [t2 [o2|e]] eqn:Htail; simpl in Hrun; [|discriminate].
      injection Hrun as _ <-.
      apply forEach_cons_inv in Htail as (t3 & o3 & t4 & Hline & Hrest & _).
      rewrite (parse_lines_lookup_other _ _ _ _ _ Hrest Hafter).
      rewrite parse_header_named in Hline by assumption.
      apply String.eqb_neq in Hstatus. rewrite Hstatus in Hline.
      injection Hline as _ <-. unfold Obj.set.
      apply String.eqb_neq in Hproto. rewrite Hproto.
      apply ObjLaws.lookup_define_eq. }
    split.
    - intros Hin. apply (ObjLaws.In_lookup _ _ _ Hnd) in Hin. congruence.
    - intros ->. now apply ObjLaws.lookup_In. }
  intros w. split.
  - intros value Hin. apply Hiff. exact (NodeFacts.run_In _ _ _ Hin).
  - intros Haccepts. rewrite (NodeFacts.accepted_calls _ _ Haccepts). now apply Hiff.
Qed.

Lemma X10_last_line_of_a_name_decides_witness :
  In (res_setHeader "X-Git" "b:c")
     (fst (Node.run (Node.fresh_world Node.spawned)
             (trace (translate_headers Obj.empty
                       ("X-Git: a" +:+ CRLF +:+ "X-Git:  b:c " +:+ CRLF
                        +:+ "Status: 200"))))).
Proof.
  refine (proj2 (X10_last_line_of_a_name_decides
                   ("X-Git: a" +:+ CRLF +:+ "X-Git:  b:c " +:+ CRLF +:+ "Status: 200")
                   "X-Git" "  b:c " ["X-Git: a"] ["Status: 200"] _ _ _
                   (Node.fresh_world Node.spawned)) _).
  - reflexivity.
  - apply forwardable_check. reflexivity.
  - intros line rest' [<-|[]] H. discriminate H.
  - reflexivity.
Defined.

Example rejected_name_stops_the_loop :
  Node.run (Node.fresh_world Node.spawned)
    (trace (translate_headers Obj.empty ("Bad Header: x" +:+ CRLF +:+ "X-Git: a")))
  = ([], Node.dead (Node.rejected (res_setHeader "Bad Header" "x"))).
Proof. reflexivity. Qed.

(** ** Requests as the process lives them *)

Lemma harmless_of_no_res_calls t :
  forallb (fun e => is_res_call e || is_harmless e) t = true ->
  res_calls t = [] ->
  forallb is_harmless t = true.
Proof.
  induction t as [|e t IH]; [reflexivity|]. simpl.
  intros Hall Hnone. apply andb_true_iff in Hall as [He Hall].
  unfold res_calls in *. simpl in Hnone.
  destruct (is_res_call e); [discriminate|].
  simpl in He. rewrite He. now apply IH.
Qed.

Section Lifetimes.
Variable Buffer_toString : list byte -> string.
Local Open Scope nat_scope.

Local Abbreviation on_event := (on_event Buffer_toString).

(** The listeners call nothing but the response and the console. *)
Lemma on_event_calls st ev :
  forallb (fun e => is_res_call e || is_harmless e) (fst (on_event st ev)) = true.
Proof.
  destruct ev as [error|chunk| |data]; try reflexivity. simpl.
  pose proof (on_stdout_data_res_calls Buffer_toString st chunk) as Hcalls.
  rewrite forallb_forall in *. intros e He. now rewrite (Hcalls e He).
Qed.

Lemma events_calls events st :
  forallb (fun e => is_res_call e || is_harmless e)
          (fst (forEach events on_event st)) = true.
Proof. apply forEach_trace_forallb, on_event_calls. Qed.


(** C8.  What a failed spawn leads to depends on how it fails.  When
    [spawn] returns a child with its streams and the child then emits
    [error] ([ENOENT], [EACCES]), the listener logs the error, sets
    status 500 and ends the response with the body
    [Internal Server Error]; the end of the child's streams changes
    nothing, and the process lives on.  When [spawn] returns a child
    without streams ([EMFILE], [ENFILE]), [req.pipe] throws on the
    missing [stdin]; when [spawn] itself throws, the handler ends there.
    In both cases nothing is logged, the request gets no answer, and the
    exception, caught nowhere, ends the process. *)
Theorem C8_spawn_failure_outcomes
    (p : process) (req : IncomingMessage) (t0 : list effect) (st0 : proxy)
    (error : string) (later : list backend_event) :
  requestHandler p req = (t0, Normal (Some st0)) ->
  forallb is_quiet later = true ->
  (exists t',
      Node.serve Buffer_toString (Node.fresh_world Node.failed_with_streams) p req
        (map Node.to_listener (child_error error :: later))
      = (t0 ++ [console_error "Git backend error:" error;
                res_statusCode (Int 500);
                res_end (Some "Internal Server Error")] ++ t',
         Node.alive {| Node.child := Node.failed_with_streams;
                       Node.res := {| Node.statusCode := Int 500;
                                      Node.headersSent := true;
                                      Node.finished := true |} |})
      /\ forallb is_harmless t' = true)
  /\ (exists env, forall incidents,
        Node.serve Buffer_toString (Node.fresh_world Node.failed_without_streams) p req
          incidents
        = ([child_spawn "git" ["http-backend"] env],
           Node.dead (Node.rejected req_pipe_stdin)))
  /\ (exists env, forall incidents,
        Node.serve Buffer_toString (Node.fresh_world Node.spawn_threw) p req incidents
        = ([], Node.dead (Node.rejected (child_spawn "git" ["http-backend"] env)))).
Proof.
  intros Hreq Hquiet.
  destruct (requestHandler_proxied_inv _ _ _ _ Hreq) as (u & _ & Ht0 & Hst0).
  split; [|split].
  - destruct (run_quiet Buffer_toString later st0 Hquiet) as (t' & Hlater & Hcalls).
    assert (forallb is_harmless t' = true) as Hharmless.
    { apply harmless_of_no_res_calls; [|exact Hcalls].
      pose proof (events_calls later st0) as Hall. now rewrite Hlater in Hall. }
    exists t'. split; [|exact Hharmless].
    rewrite (serve_run _ _ _ _ _ _ _ Hreq).
    assert (forEach (child_error error :: later) on_event st0
            = ([console_error "Git backend error:" error;
                res_statusCode (Int 500);
                res_end (Some "Internal Server Error")] ++ t', Normal st0)) as Hall.
    { simpl. unfold bind. simpl. now rewrite Hlater. }
    rewrite (serve_proxied Buffer_toString _ _ _ _ _ _ _ Hreq Hall).
    unfold trace. simpl fst. rewrite NodeFacts.run_app. subst t0.
    rewrite NodeFacts.run_dispatch by now right. cbn [fst snd].
    change (console_error "Git backend error:" error
            :: res_statusCode (Int 500)
            :: res_end (Some "Internal Server Error") :: t')
      with ([console_error "Git backend error:" error;
             res_statusCode (Int 500);
             res_end (Some "Internal Server Error")] ++ t').
    rewrite NodeFacts.run_app.
    change (Node.run (Node.fresh_world Node.failed_with_streams)
              [console_error "Git backend error:" error;
               res_statusCode (Int 500);
               res_end (Some "Internal Server Error")])
      with ([console_error "Git backend error:" error;
             res_statusCode (Int 500);
             res_end (Some "Internal Server Error")],
            Node.alive {| Node.child := Node.failed_with_streams;
                          Node.res := {| Node.statusCode := Int 500;
                                         Node.headersSent := true;
                                         Node.finished := true |} |}).
    cbn [fst snd].
    now rewrite (NodeFacts.run_after_end
                   {| Node.child := Node.failed_with_streams;
                      Node.res := {| Node.statusCode := Int 500;
                                     Node.headersSent := true;
                                     Node.finished := true |} |}
                   t' Hharmless eq_refl).
  - exists (cgi_env p req u). intros incidents.
    unfold Node.serve. rewrite Hreq, Ht0. reflexivity.
  - exists (cgi_env p req u). intros incidents.
    unfold Node.serve. rewrite Hreq, Ht0. reflexivity.
Qed.

(** X14.  The parser holds no body byte back and invents none.  At
    every point of a spawned backend's run, the bytes written so far
    are the first of the bytes received so far after the first
    [CRLFCRLF], and all of them when no call was rejected up to that
    point. *)
Theorem X14_body_written_as_it_arrives (events : list backend_event) (w : Node.world) :
  error_free events = true ->
  let s := stdout_bytes events in
  let received := match indexOf CRLFCRLF s with
                  | Some i => drop (i + 4) s
                  | None => []
                  end in
  let outcome := Node.listen Buffer_toString w fresh_proxy
                   (map Node.to_listener events) in
  (exists rest, received = body_bytes (fst outcome) ++ rest)
  /\ (forall w', snd outcome = Node.alive w' -> body_bytes (fst outcome) = received).
Proof.
  intros Hfree s received outcome. subst s received outcome.
  rewrite NodeFacts.listen_run.
  pose proof (run_summary Buffer_toString events Hfree) as (_ & _ & Hbody).
  simpl in Hbody. rewrite <- Hbody. split.
  - destruct (NodeFacts.run_prefix w (fst (forEach events on_event fresh_proxy)))
      as [rest Hsplit].
    exists (body_bytes rest). rewrite <- body_bytes_app. now rewrite <- Hsplit.
  - intros w' Halive. now rewrite (NodeFacts.run_alive _ _ _ Halive).
Qed.

(** X16.  What ends the process while the backend's output is
    translated.  Take output with a first [CRLFCRLF].  If one of the
    translation's [setHeader] calls has a name or a value that Node does
    not accept, the listener throws in it: the calls made are status and
    header calls only, and no body byte is written.  If they are all
    acceptable but the final status code is not in 100..999 (a [Status]
    line without a number gives [NaN]), the head is set and the first
    call that needs it, a [write] or the [end], throws.  Nothing
    catches either exception. *)
Theorem X16_what_ends_the_process
    (chunks : list (list byte)) (pre post : list byte) :
  concat chunks = pre ++ CRLFCRLF ++ post ->
  (forall pre' post',
      concat chunks = pre' ++ CRLFCRLF ++ post' -> length pre <= length pre') ->
  let head := trace (translate_headers Obj.empty (Buffer_toString pre)) in
  let outcome := Node.listen Buffer_toString (Node.fresh_world Node.spawned) fresh_proxy
                   (map Node.to_listener (map stdout_data chunks ++ [stdout_end])) in
  (headers_ok head = false ->
   exists done e,
     outcome = (done, Node.dead (Node.rejected e))
     /\ forallb is_head done = true
     /\ body_bytes done = [])
  /\ (headers_ok head = true ->
      Node.valid_status (status_after head (Int 200)) = false ->
      exists e,
        outcome = (head, Node.dead (Node.rejected e))
        /\ is_head e = false).
Proof.
  intros Hdec Hmin head outcome. subst head outcome.
  destruct (chunks_run Buffer_toString chunks pre post Hdec Hmin)
    as (ws & st' & Hrun & Hws & Hparsed).
  assert (forEach (map stdout_data chunks ++ [stdout_end]) on_event fresh_proxy
          = ((trace (translate_headers Obj.empty (Buffer_toString pre))
                ++ map res_write ws) ++ [res_end None], Normal st')) as Hall
    by (rewrite (forEach_app _ _ _ _ _ _ Hrun); reflexivity).
  rewrite NodeFacts.listen_run, Hall. cbn [fst]. rewrite <- app_assoc.
  pose proof (translate_headers_heads Obj.empty (Buffer_toString pre)) as Hheads.
  split.
  - intros Hbad.
    destruct (NodeFacts.run_heads_bad (Node.fresh_world Node.spawned) _
                (map res_write ws ++ [res_end None]) Hheads eq_refl Hbad)
      as (done & e & -> & Hdone).
    exists done, e. split; [reflexivity|]. split; [exact Hdone|].
    now apply body_bytes_heads.
  - intros Hok Hinvalid. rewrite NodeFacts.run_app.
    rewrite (NodeFacts.run_heads_ok (Node.fresh_world Node.spawned) _
               Hheads eq_refl Hok).
    cbn [fst snd].
    destruct ws as [|chunk ws]; simpl; rewrite Hinvalid; simpl; rewrite app_nil_r.
    + now exists (res_end None).
    + now exists (res_write chunk).
Qed.


End Lifetimes.



Lemma C8_spawn_failure_outcomes_witness :
  (exists t',
      Node.serve sample_toString (Node.fresh_world Node.failed_with_streams)
        sample_process (sample_request "GET" "/git/repos1.git/info/refs")
        (map Node.to_listener [child_error "Error: spawn git ENOENT"; stdout_end])
      = (trace (requestHandler sample_process
                  (sample_request "GET" "/git/repos1.git/info/refs"))
           ++ [console_error "Git backend error:" "Error: spawn git ENOENT";
               res_statusCode (Int 500);
               res_end (Some "Internal Server Error")] ++ t',
         Node.alive {| Node.child := Node.failed_with_streams;
                       Node.res := {| Node.statusCode := Int 500;
                                      Node.headersSent := true;
                                      Node.finished := true |} |})
      /\ forallb is_harmless t' = true)
  /\ (exists env, forall incidents,
        Node.serve sample_toString (Node.fresh_world Node.failed_without_streams)
          sample_process (sample_request "GET" "/git/repos1.git/info/refs") incidents
        = ([child_spawn "git" ["http-backend"] env],
           Node.dead (Node.rejected req_pipe_stdin)))
  /\ (exists env, forall incidents,
        Node.serve sample_toString (Node.fresh_world Node.spawn_threw)
          sample_process (sample_request "GET" "/git/repos1.git/info/refs") incidents
        = ([], Node.dead (Node.rejected (child_spawn "git" ["http-backend"] env)))).
Proof.
  refine (C8_spawn_failure_outcomes sample_toString sample_process
            (sample_request "GET" "/git/repos1.git/info/refs") _ fresh_proxy
            "Error: spawn git ENOENT" [stdout_end] _ _).
  - reflexivity.
  - reflexivity.
Defined.

Example emfile_ends_the_process :
  Node.serve sample_toString (Node.fresh_world Node.failed_without_streams)
    sample_process (sample_request "GET" "/git/repos1.git/info/refs")
    [Node.to_listener (child_error "Error: spawn git EMFILE"); Node.to_listener stdout_end]
  = ([child_spawn "git" ["http-backend"]
        (cgi_env sample_process (sample_request "GET" "/git/repos1.git/info/refs")
           {| pathname := "/git/repos1.git/info/refs";
              searchParams := [("service", "git-upload-pack")] |})],
     Node.dead (Node.rejected req_pipe_stdin)).
Proof. reflexivity. Qed.

Example broken_pipe_ends_the_process :
  Node.serve sample_toString (Node.fresh_world Node.spawned)
    sample_process (sample_request "POST" "/git/repos1.git/git-upload-pack")
    [Node.to_listener (stdout_data (bytes "Status: 403 Forbidden"));
     Node.stdin_error;
     Node.to_listener stdout_end]
  = (trace (requestHandler sample_process
              (sample_request "POST" "/git/repos1.git/git-upload-pack")),
     Node.dead Node.unhandled_error_on_stdin).
Proof. reflexivity. Qed.

Lemma X14_body_written_as_it_arrives_witness :
  body_bytes
    (fst (Node.listen sample_toString (Node.fresh_world Node.spawned) fresh_proxy
            (map Node.to_listener
               (map stdout_data sample_chunks ++ [stderr_data (bytes "note")]))))
  = sample_body.
Proof.
  refine (proj2 (X14_body_written_as_it_arrives sample_toString
                   (map stdout_data sample_chunks ++ [stderr_data (bytes "note")])
                   (Node.fresh_world Node.spawned) _)
            {| Node.child := Node.spawned;
               Node.res := {| Node.statusCode := Int 404;
                              Node.headersSent := true;
                              Node.finished := false |} |} _).
  - reflexivity.
  - reflexivity.
Defined.

Lemma X16_what_ends_the_process_witness :
  exists e,
    Node.listen sample_toString (Node.fresh_world Node.spawned) fresh_proxy
      (map Node.to_listener
         (map stdout_data
            [bytes ("Status: none" +:+ CRLF +:+ "Content-Type: text/plain"
                    +:+ CRLF +:+ CRLF +:+ "body")]
          ++ [stdout_end]))
    = ([res_statusCode NaN; res_setHeader "Content-Type" "text/plain"],
       Node.dead (Node.rejected e))
    /\ is_head e = false.
Proof.
  refine (proj2 (X16_what_ends_the_process sample_toString
                   [bytes ("Status: none" +:+ CRLF +:+ "Content-Type: text/plain"
                           +:+ CRLF +:+ CRLF +:+ "body")]
                   (bytes ("Status: none" +:+ CRLF +:+ "Content-Type: text/plain"))
                   (bytes "body") _ _) _ _).
  - reflexivity.
  - intros pre' post' Hdec.
    refine (indexOf_least CRLFCRLF _ _ pre' post' _ Hdec). reflexivity.
  - reflexivity.
  - reflexivity.
Defined.

